(** * REIMU: a shallow embedding of the assembler helpers, the linker's
      immediate evaluator, the interpreter driver and the disassembler.

    Each module below follows one source file.  Fixed-width integers are
    integers of [Z] with the wrap-around written out, [std::string_view] is a
    list of characters, symbol tables are finite maps, and C++ exceptions are
    the [Throw] branch of a result type, [except]. *)

From Stdlib Require Import ZArith String Ascii List Bool Lia.
From Stdlib Require Import Numbers.DecimalString.
From stdpp Require Import base option list gmap strings.

Local Open Scope Z_scope.

(** ** Exceptions and the result type *)

(** interpreter/exception.h: [enum class Error]. *)
Inductive Error :=
| LoadMisAligned | LoadOutOfBound
| StoreMisAligned | StoreOutOfBound
| InsMisAligned | InsOutOfBound | InsUnknown
| LibcMisAligned | LibcOutOfBound | LibcError
| DivideByZero
| NotImplemented.

(** What a C++ [throw] can carry in the embedded code.  [PanicError] is the
    sentinel that [panic] throws and only [main] catches, [AssertionFailed]
    a failed [runtime_assert], and [Unreachable] the end of the process in
    [unreachable], which no handler ever sees. *)
Inductive exception :=
| PanicError (message : string)
| AssertionFailed
| Unreachable (message : string)
| FailToParse (message : string)
| FailToInterpret (error : Error)
| StdException (what : string).

Inductive except (A : Type) :=
| Ok (a : A)
| Throw (e : exception).
Arguments Ok {A} a.
Arguments Throw {A} e.

Definition bind {A B} (r : except A) (k : A -> except B) : except B :=
  match r with
  | Ok a => k a
  | Throw e => Throw e
  end.

Notation "'let*' x ':=' r 'in' k" := (bind r (fun x => k))
  (at level 10, x name, r at level 100, k at level 200).

(** Modelled from the spec: [panic] is declared in utility/error.h, which
    is not among the embedded files.  It aborts the run with a formatted
    message by throwing the panic sentinel. *)
Definition panic {A} (message : string) : except A := Throw (PanicError message).

(** Modelled from the spec: [panic_if], from utility/error.h, panics when
    the condition holds. *)
Definition panic_if (cond : bool) (message : string) : except unit :=
  if cond then panic message else Ok tt.

(** Modelled from the spec: [runtime_assert], from utility.h; a failed
    assertion is fatal. *)
Definition runtime_assert (cond : bool) : except unit :=
  if cond then Ok tt else Throw AssertionFailed.

(** Modelled from the spec: [unreachable], from utility/error.h, reports an
    internal bug and ends the process. *)
Definition unreachable {A} (message : string) : except A := Throw (Unreachable message).

(** [throw_if <FailToParse> (cond, message)]. *)
Definition throw_if_FailToParse (cond : bool) (message : string) : except unit :=
  if cond then Throw (FailToParse message) else Ok tt.

Definition dquote : string := String (ascii_of_nat 34) EmptyString.
Definition newline : string := String (ascii_of_nat 10) EmptyString.

Definition std_exception_caught (what : string) : string :=
  ("std::exception caught: " +:+ what +:+ newline)%string.

(** ** Machine integers *)

(** Modelled from the spec: [target_size_t] and [command_size_t] are declared
    in declarations.h, which is not among the embedded files; the target is
    RV32, so both are unsigned 32-bit integers.  [std::size_t] is the host's
    unsigned 64-bit integer. *)
Definition target_bits : Z := 32.
Definition size_bits : Z := 64.

Definition to_target (z : Z) : Z := z mod 2 ^ target_bits.
Definition to_size (z : Z) : Z := z mod 2 ^ size_bits.
Definition SIZE_MAX : Z := 2 ^ size_bits - 1.

(** Two's complement reading of the low [n] bits. *)
Definition sign_extend (n : Z) (z : Z) : Z :=
  let low := z mod 2 ^ n in
  if Z.testbit low (n - 1) then low - 2 ^ n else low.

(** ** linker/evaluate.h *)
Module evaluate.

Inductive Operand := HI | LO | PCREL_HI | PCREL_LO.

Inductive Operator := ADD | SUB | END.

#[warnings="-register-all"]
Inductive ImmediateBase :=
| IntImmediate (data : Z)
| StrImmediate (data : string)
| RelImmediate (imm : ImmediateBase) (operand : Operand)
| TreeImmediate (data : list (ImmediateBase * Operator)).

Global Instance Operator_eq_dec : EqDecision Operator.
Proof. solve_decision. Defined.

(** A symbol table maps a name to the location of the symbol
    ([it->second.get_location()]).  [local_table] is the table the linker
    installed with [set_local] for the file being processed. *)
Record Evaluator := {
  global_table : gmap string Z;
  local_table : gmap string Z;
  position : Z
}.

Definition set_local (ev : Evaluator) (table : gmap string Z) : Evaluator :=
  {| global_table := global_table ev; local_table := table; position := position ev |}.

Definition set_position (ev : Evaluator) (p : Z) : Evaluator :=
  {| global_table := global_table ev; local_table := local_table ev; position := p |}.

Definition get_current_location (ev : Evaluator) : Z := position ev.

Definition unknown_symbol (str : string) : string :=
  ("Unknown symbol " +:+ dquote +:+ str +:+ dquote)%string.

Definition get_symbol_position (ev : Evaluator) (str : string) : except Z :=
  match local_table ev !! str with
  | Some location => Ok location
  | None =>
      match global_table ev !! str with
      | Some location => Ok location
      | None => panic (unknown_symbol str)
      end
  end.

Record lo_hi := { lo : Z; hi : Z }.

(** Modelled from the spec: [split_lo_hi] comes from utility.h, which is not
    among the embedded files.  HI is [(v + 0x800) >> 12] and LO is the
    sign-extended low 12 bits of [v], both as [target_size_t]. *)
Definition split_lo_hi (value : Z) : lo_hi :=
  {| lo := to_target (sign_extend 12 value);
     hi := Z.shiftr (to_target (value + 0x800)) 12 |}.

(** The loop of [evaluate_tree], over the function that evaluates one
    sub-immediate.  The element is evaluated before [last_op] is examined. *)
Definition evaluate_tree_loop (eval : ImmediateBase -> except Z) :=
  fix loop (data : list (ImmediateBase * Operator)) (last_op : Operator)
      (result : Z) {struct data} : except Z :=
    match data with
    | [] =>
        let* _ := runtime_assert (bool_decide (last_op = END)) in
        Ok result
    | (sub, op) :: rest =>
        let* value := eval sub in
        match last_op with
        | ADD => loop rest op (to_target (result + value))
        | SUB => loop rest op (to_target (result - value))
        | END => Throw AssertionFailed
        end
    end.

Fixpoint evaluate (ev : Evaluator) (imm : ImmediateBase) {struct imm} : except Z :=
  match imm with
  | IntImmediate data => Ok (to_target data)
  | StrImmediate data =>
      let* location := get_symbol_position ev data in
      Ok (to_target location)
  | RelImmediate inner operand =>
      let* value := evaluate ev inner in
      match operand with
      | HI => Ok (hi (split_lo_hi value))
      | LO => Ok (lo (split_lo_hi value))
      | PCREL_HI => Ok (to_target (Z.shiftr (to_size (value - position ev)) 12))
      | PCREL_LO => Ok (to_target (Z.land (to_size (value - position ev)) 0xFFF))
      end
  | TreeImmediate data => evaluate_tree_loop (evaluate ev) data ADD 0
  end.

Definition evaluate_tree (ev : Evaluator) (tree : list (ImmediateBase * Operator)) : except Z :=
  evaluate_tree_loop (evaluate ev) tree ADD 0.

End evaluate.

(** ** assembly/helper.h *)
Module helper.

(** [std::string_view]: a window on a character buffer; [remove_prefix],
    [remove_suffix] and [substr] are [drop] and [take]. *)
Abbreviation string_view := (list ascii).

Definition sv (s : string) : string_view := list_ascii_of_string s.

Definition code (c : ascii) : Z := Z.of_N (N_of_ascii c).

(** <cctype> in the "C" locale. *)
Definition isdigit (c : ascii) : bool := (48 <=? code c) && (code c <=? 57).
Definition isupper (c : ascii) : bool := (65 <=? code c) && (code c <=? 90).
Definition islower (c : ascii) : bool := (97 <=? code c) && (code c <=? 122).
Definition isalnum (c : ascii) : bool := isdigit c || isupper c || islower c.
Definition isspace (c : ascii) : bool :=
  (code c =? 32) || ((9 <=? code c) && (code c <=? 13)).

Definition char_eqb (a b : ascii) : bool := Ascii.eqb a b.

Definition underscore : ascii := ascii_of_nat 95.
Definition dot : ascii := ascii_of_nat 46.
Definition at_sign : ascii := ascii_of_nat 64.
Definition comma : ascii := ascii_of_nat 44.
Definition colon : ascii := ascii_of_nat 58.
Definition hash : ascii := ascii_of_nat 35.
Definition double_quote : ascii := ascii_of_nat 34.

(** Whether the character is a valid token character. *)
Definition is_label_char (c : ascii) : bool :=
  isalnum c || char_eqb c underscore || char_eqb c dot || char_eqb c at_sign.

(** Whether the character is a valid split character. *)
Definition is_split_char (c : ascii) : bool :=
  isspace c || char_eqb c comma.

(** Remove the front whitespace of the string. *)
Fixpoint remove_front_whitespace (str : string_view) : string_view :=
  match str with
  | c :: rest => if isspace c then remove_front_whitespace rest else str
  | [] => []
  end.

(** Remove the back whitespace of the string: the same loop, run from the
    other end of the view. *)
Definition remove_back_whitespace (str : string_view) : string_view :=
  reverse (remove_front_whitespace (reverse str)).

(** Whether the string part contains no token. *)
Definition contain_no_token (str : string_view) : bool :=
  match remove_front_whitespace str with
  | [] => true
  | c :: _ => char_eqb c hash
  end.

(** Check whether the label is valid: no character fails [is_label_char]. *)
Definition is_valid_label (str : string_view) : bool :=
  forallb is_label_char str.

(** [str.find_first_of(c)]: the index of the first [c], [None] for [npos]. *)
Fixpoint find_first_of (c : ascii) (str : string_view) : option nat :=
  match str with
  | [] => None
  | d :: rest => if char_eqb d c then Some O else S <$> find_first_of c rest
  end.

(** [pos < other] for an index [pos] of the string and a search result
    [other]; [npos] is the largest [size_t], above every index. *)
Definition before (pos : nat) (other : option nat) : bool :=
  match other with
  | None => true
  | Some p => Nat.ltb pos p
  end.

Definition invalid_label (label : string_view) : string :=
  ("Invalid label: " +:+ dquote +:+ string_of_list_ascii label +:+ dquote)%string.

(** Whether the string part starts with a label. *)
Definition start_with_label (str : string_view) : except (option string_view) :=
  let pos1 := find_first_of double_quote str in
  let pos2 := find_first_of colon str in
  match pos2 with
  | Some p2 =>
      if before p2 pos1 then
        let label := take p2 str in
        let rest := drop (p2 + 1) str in
        let* _ := throw_if_FailToParse (negb (is_valid_label label)) (invalid_label label) in
        let* _ := throw_if_FailToParse (negb (contain_no_token rest))
                    "Unexpected token after label" in
        Ok (Some label)
      else Ok None
  | None => Ok None
  end.

(** The message of a [FailToParse] thrown without one. *)
Definition no_message : string := EmptyString.

(** Remove the comment and make sure there is no double quote in the string. *)
Definition remove_comments_when_no_string (str : string_view) : except string_view :=
  let* _ := throw_if_FailToParse (bool_decide (find_first_of double_quote str <> None))
              no_message in
  match find_first_of hash str with
  | None => Ok (take (length str) str)
  | Some pos => Ok (take pos str)
  end.

(** The [while] loop of [split_command] for [_N >= 2]; [remaining] is
    [_N - 1 - i] on entry of an iteration, and [ret] holds the [i] tokens
    stored so far. *)
Fixpoint split_command_loop (remaining : nat) (str : string_view)
    (ret : list string_view) {struct remaining} : except (list string_view) :=
  match find_first_of comma str with
  | None => Throw (FailToParse "Too few arguments")
  | Some pos =>
      let ret := ret ++ [remove_back_whitespace (take pos str)] in
      let str := remove_front_whitespace (drop (pos + 1) str) in
      match remaining with
      | S (S _ as remaining') => split_command_loop remaining' str ret
      | _ => Ok (ret ++ [remove_back_whitespace str])
      end
  end.

(** [split_command<_N>(str)]; the array of [_N] views is a list, and the
    [void] of [_N == 0] is the empty list. *)
Definition split_command (_N : nat) (str : string_view) : except (list string_view) :=
  match _N with
  | O =>
      let* _ := throw_if_FailToParse (negb (contain_no_token str)) no_message in
      Ok []
  | S n =>
      let* body := remove_comments_when_no_string str in
      let str := remove_front_whitespace body in
      match n with
      | O => Ok [remove_back_whitespace str]
      | S _ => split_command_loop n str []
      end
  end.

(** [std::ranges::find_if(str, pred) - str.begin()]: the index of the first
    character that satisfies [pred], the size of the view when none does. *)
Fixpoint find_if (pred : ascii -> bool) (str : string_view) : nat :=
  match str with
  | [] => O
  | c :: rest => if pred c then O else S (find_if pred rest)
  end.

(** Find the first token in the string. *)
Definition find_first_token (str : string_view) : string_view * string_view :=
  let str := remove_front_whitespace str in
  let pos := find_if (fun c => is_split_char c || char_eqb c hash) str in
  (take pos str, drop pos str).

Definition backslash : ascii := ascii_of_nat 92.
Definition left_paren : ascii := ascii_of_nat 40.
Definition right_paren : ascii := ascii_of_nat 41.

(** The inner [switch] of [find_first_asciz]: the character an escape
    letter stands for, [None] for the [default] branch. *)
Definition escaped (c : ascii) : option ascii :=
  if char_eqb c (ascii_of_nat 110) then Some (ascii_of_nat 10)
  else if char_eqb c (ascii_of_nat 116) then Some (ascii_of_nat 9)
  else if char_eqb c (ascii_of_nat 114) then Some (ascii_of_nat 13)
  else if char_eqb c (ascii_of_nat 48) then Some (ascii_of_nat 0)
  else if char_eqb c backslash then Some backslash
  else if char_eqb c double_quote then Some double_quote
  else None.

(** The [for] loop of [find_first_asciz], from index 1 on: [str] is what is
    left of the view and [ret] the string built so far.  A backslash at the
    very end of the view reads the terminator behind it, as the comment in
    the source says, which is no escape letter. *)
Fixpoint find_first_asciz_loop (str : string_view) (ret : list ascii)
    {struct str} : except (list ascii * string_view) :=
  match str with
  | [] => Throw (FailToParse "Missing end of string")
  | c :: rest =>
      if char_eqb c backslash then
        match rest with
        | [] => Throw (FailToParse "Invalid escape character")
        | letter :: rest =>
            match escaped letter with
            | Some x => find_first_asciz_loop rest (ret ++ [x])
            | None => Throw (FailToParse "Invalid escape character")
            end
        end
      else if char_eqb c double_quote then Ok (ret, rest)
      else find_first_asciz_loop rest (ret ++ [c])
  end.

(** Find and extract the first asciz string. *)
Definition find_first_asciz (str : string_view) : except (list ascii * string_view) :=
  match remove_front_whitespace str with
  | c :: rest =>
      if char_eqb c double_quote then find_first_asciz_loop rest []
      else Throw (FailToParse "Invalid ascii string")
  | [] => Throw (FailToParse "Invalid ascii string")
  end.

(** [str.starts_with(s)]. *)
Fixpoint starts_with (str s : string_view) : bool :=
  match s, str with
  | [], _ => true
  | _ :: _, [] => false
  | d :: s, c :: str => char_eqb c d && starts_with str s
  end.

(** [str == s] on views. *)
Fixpoint view_eqb (str s : string_view) : bool :=
  match str, s with
  | [], [] => true
  | c :: str, d :: s => char_eqb c d && view_eqb str s
  | _, _ => false
  end.

Fixpoint match_string (str : string_view) (list : list string_view) : bool :=
  match list with
  | [] => false
  | s :: list => if view_eqb str s then true else match_string str list
  end.

Fixpoint match_prefix (str : string_view) (list : list string_view) : bool :=
  match list with
  | [] => false
  | s :: list => if starts_with str s then true else match_prefix str list
  end.

(** [str.find_last_of(c)]: the index of the last [c], [None] for [npos]. *)
Fixpoint find_last_of (c : ascii) (str : string_view) : option nat :=
  match str with
  | [] => None
  | d :: rest =>
      match find_last_of c rest with
      | Some pos => Some (S pos)
      | None => if char_eqb d c then Some O else None
      end
  end.

Definition invalid_offset (str : string_view) : string :=
  ("Invalid immediate and offset: " +:+ dquote +:+ string_of_list_ascii str +:+ dquote)%string.

(** The message is formatted from the view as it is when the exception is
    thrown: with the closing parenthesis already removed when it is the
    opening one that is missing. *)
Definition split_offset_and_register (str : string_view)
    : except (string_view * string_view) :=
  match last str with
  | Some c =>
      if char_eqb c right_paren then
        let str := take (length str - 1) str in
        match find_last_of left_paren str with
        | Some pos => Ok (take pos str, drop (pos + 1) str)
        | None => Throw (FailToParse (invalid_offset str))
        end
      else Throw (FailToParse (invalid_offset str))
  | None => Throw (FailToParse (invalid_offset str))
  end.

End helper.


(** ** src/interpreter/interpreter.cpp *)
Module interpreter.

(** [Linker::LinkResult::Section]: the base address and the bytes. *)
Record LinkResult_Section := {
  start : Z;
  storage : list Byte.byte
}.

Record LinkResult := {
  text : LinkResult_Section;
  data : LinkResult_Section;
  rodata : LinkResult_Section;
  bss : LinkResult_Section;
  position_table : gmap string Z
}.

Definition storage_size (section : LinkResult_Section) : Z :=
  Z.of_nat (length (storage section)).

Definition get_start_end (section : LinkResult_Section) : Z * Z :=
  (start section, to_size (start section + storage_size section)).

Definition check_no_overlap (result : LinkResult) : except unit :=
  let '(text_start, text_end) := get_start_end (text result) in
  let '(data_start, data_end) := get_start_end (data result) in
  let '(rodata_start, rodata_end) := get_start_end (rodata result) in
  let '(bss_start, bss_end) := get_start_end (bss result) in
  runtime_assert
    ((text_end <=? data_start) &&
     (data_end <=? rodata_start) &&
     (rodata_end <=? bss_start)).

(** The constructor [Interpreter::Interpreter], from the point where the
    linker hands over its result ([Linker{ assemblies }.get_result()], which
    may itself have thrown).  Printing the section table under "detail" has
    no effect on the outcome. *)
Definition Interpreter_new (get_result : except LinkResult) : except LinkResult :=
  let* result := get_result in
  let* _ := panic_if (bool_decide (position_table result !! "main"%string = None))
              "No main function found" in
  let* _ := check_no_overlap result in
  Ok result.

End interpreter.

(** ** src/interpreter/backend.cpp *)
Module backend.

Section Simulate.
(** [Machine] gathers what the loop mutates through references: the
    register file, the memory, the device and the instruction cache. *)
Context {Machine Hint : Type}.

Inductive executed :=
| Retired (m : Machine) (hint : Hint)
| Raised (e : exception) (m : Machine).

(** [rf.advance()]. *)
Variable advance : Machine -> bool * Machine.
(** [icache.ifetch(rf.get_pc(), hint)] followed by [exe(rf, mem, dev)]. *)
Variable execute : Machine -> Hint -> executed.
(** [Hint {}]. *)
Variable hint0 : Hint.
(** [e.what(rf, mem, dev)]. *)
Variable what : Error -> Machine -> string.

Inductive loop_exit :=
| Ended (timeout : Z) (m : Machine) (retired : nat)
| Thrown (e : exception) (m : Machine) (retired : nat).

(** [while (rf.advance() && timeout --> 0) { ... }]: [timeout] is a
    [std::size_t], its post-decrement happens only when [advance] returned
    true, and wraps below zero.  [retired] counts the completed bodies. *)
Fixpoint while_loop (fuel : nat) (timeout : Z) (m : Machine) (hint : Hint)
    (retired : nat) {struct fuel} : option loop_exit :=
  match fuel with
  | O => None
  | S fuel =>
      let '(continue, m) := advance m in
      if continue then
        let old := timeout in
        let timeout := to_size (timeout - 1) in
        if old >? 0 then
          match execute m hint with
          | Retired m hint => while_loop fuel timeout m hint (S retired)
          | Raised e m => Some (Thrown e m retired)
          end
        else Some (Ended timeout m retired)
      else Some (Ended timeout m retired)
  end.

Record simulated := {
  outcome : except unit;
  retired_count : nat;
  final : Machine
}.

(** What follows the loop, and the two handlers of the [try]. *)
Definition after_loop (exit : loop_exit) : simulated :=
  match exit with
  | Ended timeout m retired =>
      {| outcome := panic_if (to_size (timeout + 1) =? 0) "Time Limit Exceeded";
         retired_count := retired; final := m |}
  | Thrown (FailToInterpret e) m retired =>
      {| outcome := panic (what e m); retired_count := retired; final := m |}
  | Thrown (StdException w) m retired =>
      {| outcome := unreachable (std_exception_caught w);
         retired_count := retired; final := m |}
  | Thrown e m retired =>
      {| outcome := Throw e; retired_count := retired; final := m |}
  end.

(** The loop body runs at most [timeout] times, so [timeout + 1] rounds of
    the condition always suffice. *)
Definition simulate_normal (m : Machine) (timeout : Z) : option simulated :=
  after_loop <$> while_loop (S (Z.to_nat timeout)) timeout m hint0 O.

End Simulate.

End backend.

(** ** src/interpreter/command.cpp *)
Module command.

(** Modelled from the spec: riscv/command.h is not among the embedded
    files.  Opcodes, funct codes, field positions and immediates are those
    of the canonical RV32I encoding, from here to the end of [auipc];
    [command_size_t] is an unsigned 32-bit word. *)
Definition bits (cmd : Z) (from count : Z) : Z :=
  Z.land (Z.shiftr cmd from) (Z.ones count).

Definition get_opcode (cmd : Z) : Z := bits cmd 0 7.
Definition get_rd (cmd : Z) : Z := bits cmd 7 5.
Definition get_funct3 (cmd : Z) : Z := bits cmd 12 3.
Definition get_rs1 (cmd : Z) : Z := bits cmd 15 5.
Definition get_rs2 (cmd : Z) : Z := bits cmd 20 5.
Definition get_funct7 (cmd : Z) : Z := bits cmd 25 7.

Module r_type.
Definition opcode : Z := 0x33.
Module Funct3.
Definition ADD := 0.
Definition SUB := 0.
Definition SLL := 1.
Definition SLT := 2.
Definition SLTU := 3.
Definition XOR := 4.
Definition SRL := 5.
Definition SRA := 5.
Definition OR := 6.
Definition AND := 7.
End Funct3.
Module Funct7.
Definition ADD := 0.
Definition SUB := 0x20.
Definition SLL := 0.
Definition SLT := 0.
Definition SLTU := 0.
Definition XOR := 0.
Definition SRL := 0.
Definition SRA := 0x20.
Definition OR := 0.
Definition AND := 0.
End Funct7.
End r_type.

Module i_type.
Definition opcode : Z := 0x13.
Module Funct3.
Definition ADD := 0.
Definition SLL := 1.
Definition SLT := 2.
Definition SLTU := 3.
Definition XOR := 4.
Definition SRL := 5.
Definition SRA := 5.
Definition OR := 6.
Definition AND := 7.
End Funct3.
Module Funct7.
Definition SLL := 0.
Definition SRL := 0.
Definition SRA := 0x20.
End Funct7.
Definition get_imm (cmd : Z) : Z := sign_extend 12 (bits cmd 20 12).
End i_type.

Module s_type.
Definition opcode : Z := 0x23.
Module Funct3.
Definition SB := 0.
Definition SH := 1.
Definition SW := 2.
End Funct3.
Definition get_imm (cmd : Z) : Z :=
  sign_extend 12 (Z.lor (Z.shiftl (bits cmd 25 7) 5) (bits cmd 7 5)).
End s_type.

Module l_type.
Definition opcode : Z := 0x03.
Module Funct3.
Definition LB := 0.
Definition LH := 1.
Definition LW := 2.
Definition LBU := 4.
Definition LHU := 5.
End Funct3.
Definition get_imm (cmd : Z) : Z := sign_extend 12 (bits cmd 20 12).
End l_type.

Module b_type.
Definition opcode : Z := 0x63.
Module Funct3.
Definition BEQ := 0.
Definition BNE := 1.
Definition BLT := 4.
Definition BGE := 5.
Definition BLTU := 6.
Definition BGEU := 7.
End Funct3.
Definition get_imm (cmd : Z) : Z :=
  sign_extend 13
    (Z.lor (Z.lor (Z.shiftl (bits cmd 31 1) 12) (Z.shiftl (bits cmd 7 1) 11))
           (Z.lor (Z.shiftl (bits cmd 25 6) 5) (Z.shiftl (bits cmd 8 4) 1))).
End b_type.

Module jal.
Definition opcode : Z := 0x6F.
Definition get_imm (cmd : Z) : Z :=
  sign_extend 21
    (Z.lor (Z.lor (Z.shiftl (bits cmd 31 1) 20) (Z.shiftl (bits cmd 12 8) 12))
           (Z.lor (Z.shiftl (bits cmd 20 1) 11) (Z.shiftl (bits cmd 21 10) 1))).
End jal.

Module jalr.
Definition opcode : Z := 0x67.
Definition get_imm (cmd : Z) : Z := sign_extend 12 (bits cmd 20 12).
End jalr.

Module lui.
Definition opcode : Z := 0x37.
Definition get_imm (cmd : Z) : Z := bits cmd 12 20.
End lui.

Module auipc.
Definition opcode : Z := 0x17.
Definition get_imm (cmd : Z) : Z := bits cmd 12 20.
End auipc.

(** [std::format] pieces: lower-case hexadecimal without leading zeros (a
    32-bit word has at most eight digits) and signed decimal. *)
Definition hex_digit (d : Z) : ascii :=
  ascii_of_N (Z.to_N (if d <? 10 then 48 + d else 87 + d)).

Fixpoint hex_digits (fuel : nat) (z : Z) : string :=
  match fuel with
  | O => EmptyString
  | S fuel =>
      if z <? 16 then String (hex_digit z) EmptyString
      else (hex_digits fuel (z / 16) +:+ String (hex_digit (z mod 16)) EmptyString)%string
  end.

(** "{:x}" *)
Definition format_x (cmd : Z) : string := hex_digits 8 cmd.
(** "{:#x}": the alternate form puts the base prefix before the digits. *)
Definition format_alt_x (cmd : Z) : string := ("0x" +:+ format_x cmd)%string.
(** "{}" on a signed integer. *)
Definition format_d (z : Z) : string := NilZero.string_of_int (Z.to_int z).

Definition default_format (cmd : Z) : string :=
  ("0x" +:+ format_alt_x cmd)%string.

(** A [switch] over integer case labels, with its [default]. *)
Definition switch {A} (key : Z) (cases : list (Z * A)) (default : A) : A :=
  match List.find (fun c => fst c =? key) cases with
  | Some c => snd c
  | None => default
  end.

Section Pretty.
(** [reg_to_sv(int_to_reg(r))], from riscv/register.h. *)
Variable reg_to_sv : Z -> string.

Definition join2 (a b : string) : string := (a +:+ ", " +:+ b)%string.
Definition join3 (a b c : string) : string := (a +:+ ", " +:+ b +:+ ", " +:+ c)%string.
Definition with_suffix (mnemonic suffix : string) : string :=
  (mnemonic +:+ " " +:+ suffix)%string.

Definition pretty_r_type (cmd : Z) : string :=
  let join a b := Z.lor (Z.shiftl a 3) b in
  let suffix := join3 (reg_to_sv (get_rd cmd)) (reg_to_sv (get_rs1 cmd))
                      (reg_to_sv (get_rs2 cmd)) in
  switch (join (get_funct7 cmd) (get_funct3 cmd))
    [ (join r_type.Funct7.ADD r_type.Funct3.ADD, with_suffix "add" suffix);
      (join r_type.Funct7.SUB r_type.Funct3.SUB, with_suffix "sub" suffix);
      (join r_type.Funct7.SLL r_type.Funct3.SLL, with_suffix "sll" suffix);
      (join r_type.Funct7.SLT r_type.Funct3.SLT, with_suffix "slt" suffix);
      (join r_type.Funct7.SLTU r_type.Funct3.SLTU, with_suffix "sltu" suffix);
      (join r_type.Funct7.XOR r_type.Funct3.XOR, with_suffix "xor" suffix);
      (join r_type.Funct7.SRL r_type.Funct3.SRL, with_suffix "srl" suffix);
      (join r_type.Funct7.SRA r_type.Funct3.SRA, with_suffix "sra" suffix);
      (join r_type.Funct7.OR r_type.Funct3.OR, with_suffix "or" suffix);
      (join r_type.Funct7.AND r_type.Funct3.AND, with_suffix "and" suffix) ]
    (default_format cmd).

Definition pretty_i_type (cmd : Z) : string :=
  let rd := reg_to_sv (get_rd cmd) in
  let rs1 := reg_to_sv (get_rs1 cmd) in
  let imm := i_type.get_imm cmd in
  let suffix := join3 rd rs1 (format_d imm) in
  switch (get_funct3 cmd)
    [ (i_type.Funct3.ADD, with_suffix "addi" suffix);
      (i_type.Funct3.SLT, with_suffix "slti" suffix);
      (i_type.Funct3.SLTU, with_suffix "sltiu" suffix);
      (i_type.Funct3.XOR, with_suffix "xori" suffix);
      (i_type.Funct3.OR, with_suffix "ori" suffix);
      (i_type.Funct3.AND, with_suffix "andi" suffix);
      (i_type.Funct3.SLL,
        if get_funct7 cmd =? i_type.Funct7.SLL then with_suffix "slli" suffix
        else default_format cmd);
      (i_type.Funct3.SRL,
        if get_funct7 cmd =? i_type.Funct7.SRL then with_suffix "srli" suffix
        else if get_funct7 cmd =? i_type.Funct7.SRA then
          let mask := 4 * 8 - 1 in
          let imm := Z.land (i_type.get_imm cmd) mask in
          with_suffix "srai" (join3 rd rs1 (format_d imm))
        else default_format cmd) ]
    (default_format cmd).

Definition pretty_s_type (cmd : Z) : string :=
  let suffix := join3 (reg_to_sv (get_rs1 cmd)) (reg_to_sv (get_rs2 cmd))
                      (format_d (s_type.get_imm cmd)) in
  switch (get_funct3 cmd)
    [ (s_type.Funct3.SW, with_suffix "sw" suffix);
      (s_type.Funct3.SH, with_suffix "sh" suffix);
      (s_type.Funct3.SB, with_suffix "sb" suffix) ]
    (default_format cmd).

Definition pretty_l_type (cmd : Z) : string :=
  let suffix := join3 (reg_to_sv (get_rd cmd)) (reg_to_sv (get_rs1 cmd))
                      (format_d (l_type.get_imm cmd)) in
  switch (get_funct3 cmd)
    [ (l_type.Funct3.LB, with_suffix "lb" suffix);
      (l_type.Funct3.LH, with_suffix "lh" suffix);
      (l_type.Funct3.LW, with_suffix "lw" suffix);
      (l_type.Funct3.LBU, with_suffix "lbu" suffix);
      (l_type.Funct3.LHU, with_suffix "lhu" suffix) ]
    (default_format cmd).

Definition pretty_b_type (cmd : Z) : string :=
  let suffix := join3 (reg_to_sv (get_rs1 cmd)) (reg_to_sv (get_rs2 cmd))
                      (format_d (b_type.get_imm cmd)) in
  switch (get_funct3 cmd)
    [ (b_type.Funct3.BEQ, with_suffix "beq" suffix);
      (b_type.Funct3.BNE, with_suffix "bne" suffix);
      (b_type.Funct3.BLT, with_suffix "blt" suffix);
      (b_type.Funct3.BGE, with_suffix "bge" suffix);
      (b_type.Funct3.BLTU, with_suffix "bltu" suffix);
      (b_type.Funct3.BGEU, with_suffix "bgeu" suffix) ]
    (default_format cmd).

Definition pretty_jal (cmd : Z) : string :=
  with_suffix "jal" (join2 (reg_to_sv (get_rd cmd)) (format_d (jal.get_imm cmd))).

Definition pretty_jalr (cmd : Z) : string :=
  with_suffix "jalr"
    (join3 (reg_to_sv (get_rd cmd)) (reg_to_sv (get_rs1 cmd))
           (format_d (jalr.get_imm cmd))).

Definition pretty_lui (cmd : Z) : string :=
  with_suffix "lui" (join2 (reg_to_sv (get_rd cmd)) (format_d (lui.get_imm cmd))).

Definition pretty_auipc (cmd : Z) : string :=
  with_suffix "auipc" (join2 (reg_to_sv (get_rd cmd)) (format_d (auipc.get_imm cmd))).

(** [DebugManager::pretty_command]. *)
Definition pretty_command (cmd : Z) : string :=
  switch (get_opcode cmd)
    [ (r_type.opcode, pretty_r_type cmd);
      (i_type.opcode, pretty_i_type cmd);
      (s_type.opcode, pretty_s_type cmd);
      (l_type.opcode, pretty_l_type cmd);
      (b_type.opcode, pretty_b_type cmd);
      (jal.opcode, pretty_jal cmd);
      (jalr.opcode, pretty_jalr cmd);
      (lui.opcode, pretty_lui cmd);
      (auipc.opcode, pretty_auipc cmd) ]
    (default_format cmd).

End Pretty.

End command.

(** ** src/main.cpp *)
Module main_cpp.

Section Main.
Context {Config Interpreter : Type}.
(** The calls of the [try] block, in order. *)
Variable Config_parse : except Config.
Variable Interpreter_new : Config -> except Interpreter.
Variable assemble : Interpreter -> except Interpreter.
Variable link : Interpreter -> except Interpreter.
Variable simulate : Interpreter -> except unit.

Definition try_block : except unit :=
  let* config := Config_parse in
  let* interpreter := Interpreter_new config in
  let* interpreter := assemble interpreter in
  let* interpreter := link interpreter in
  simulate interpreter.

(** How the process ends: [main] returns a code, or [unreachable] ended
    the process before [main] could return. *)
Inductive ending :=
| Return (code : Z)
| InternalBug (message : string).

Definition main : ending :=
  match try_block with
  | Ok _ => Return 0
  | Throw (Unreachable message) => InternalBug message
  | Throw (PanicError _) => Return 0
  | Throw (StdException what) => InternalBug (std_exception_caught what)
  | Throw _ => InternalBug ("unexpected exception caught" +:+ newline)%string
  end.

End Main.

End main_cpp.

(** ** Specification-side definitions

    These follow the wording of the specification rather than the code, and
    are what the theorems below compare the code with. *)
Module spec.
Import evaluate helper.

(** The contribution of one element of a [Tree], under the operator that
    precedes it. *)
Definition signed (op : Operator) (value : Z) : Z :=
  match op with
  | ADD => value
  | SUB => - value
  | END => 0
  end.

(** Left-to-right sum starting at 0: the first value goes under an implicit
    [ADD], every other one under the operator carried by the element before
    it. *)
Definition tree_step (acc : Z) (item : Operator * Z) : Z :=
  acc + signed (fst item) (snd item).

Definition tree_sum (ops : list Operator) (values : list Z) : Z :=
  foldl tree_step 0 (zip (ADD :: ops) values).

(** Surrounding whitespace stripped. *)
Definition strip (str : string_view) : string_view :=
  remove_back_whitespace (remove_front_whitespace str).

Definition starts_clean (str : string_view) : Prop :=
  forall c, head str = Some c -> isspace c = false.

Definition ends_clean (str : string_view) : Prop :=
  forall c, last str = Some c -> isspace c = false.

(** The text before the first hash sign. *)
Definition uncommented (str : string_view) : string_view :=
  match find_first_of hash str with
  | Some pos => take pos str
  | None => str
  end.

(** Cutting at the first [k] commas gives [k + 1] fields; there is no such
    cut when the text has fewer than [k] commas. *)
Fixpoint fields (k : nat) (str : string_view) : option (list string_view) :=
  match k with
  | O => Some [str]
  | S k =>
      match find_first_of comma str with
      | Some pos => cons (take pos str) <$> fields k (drop (S pos) str)
      | None => None
      end
  end.

(** Post-link invariant on the canonical order text, data, rodata, bss. *)
Definition section_end (section : interpreter.LinkResult_Section) : Z :=
  snd (interpreter.get_start_end section).

Definition ordered (result : interpreter.LinkResult) : Prop :=
  section_end (interpreter.text result) <= interpreter.start (interpreter.data result) /\
  section_end (interpreter.data result) <= interpreter.start (interpreter.rodata result) /\
  section_end (interpreter.rodata result) <= interpreter.start (interpreter.bss result).

(** What the loop of [simulate_normal] is specified to do with a budget of
    [T] instructions, in terms of [rounds]. *)
Section Behaviour.
Context {Machine Hint : Type}.
Variable advance : Machine -> bool * Machine.
Variable execute : Machine -> Hint -> @backend.executed Machine Hint.
Variable hint0 : Hint.
Variable what : Error -> Machine -> string.

(** The state after [k] rounds in which [advance] returned true and the
    instruction was retired; [None] when one of them did not. *)
Fixpoint rounds (k : nat) (m : Machine) (hint : Hint) : option (Machine * Hint) :=
  match k with
  | O => Some (m, hint)
  | S k =>
      let '(continue, m) := advance m in
      if continue then
        match execute m hint with
        | backend.Retired m hint => rounds k m hint
        | backend.Raised _ _ => None
        end
      else None
  end.

(** How the [while] loop is left when entered with [timeout], [m], [hint]
    and [retired] instructions so far. *)
Inductive loop_behaviour (timeout : Z) (m : Machine) (hint : Hint) (retired : nat)
  : @backend.loop_exit Machine -> Prop :=
| loop_stops k m1 h1 m2 :
    Z.of_nat k <= timeout ->
    rounds k m hint = Some (m1, h1) ->
    advance m1 = (false, m2) ->
    loop_behaviour timeout m hint retired
      (backend.Ended (timeout - Z.of_nat k) m2 (retired + k))
| loop_exhausts m1 h1 m2 :
    rounds (Z.to_nat timeout) m hint = Some (m1, h1) ->
    advance m1 = (true, m2) ->
    loop_behaviour timeout m hint retired
      (backend.Ended SIZE_MAX m2 (retired + Z.to_nat timeout))
| loop_raises k m1 h1 m2 e m3 :
    Z.of_nat k < timeout ->
    rounds k m hint = Some (m1, h1) ->
    advance m1 = (true, m2) ->
    execute m2 h1 = backend.Raised e m3 ->
    loop_behaviour timeout m hint retired (backend.Thrown e m3 (retired + k)).

(** The three ways a simulation with budget [T] can go: [advance] returns
    false after [k <= T] retirements and the loop ends cleanly; [advance]
    has returned true [T + 1] times around [T] retirements and the time
    limit is reported; or an instruction raises after [k < T] retirements
    and the handlers of the [try] take over. *)
Inductive behaviour (m : Machine) (T : Z) : @backend.simulated Machine -> Prop :=
| stops_cleanly k m1 h1 m2 :
    Z.of_nat k <= T ->
    rounds k m hint0 = Some (m1, h1) ->
    advance m1 = (false, m2) ->
    behaviour m T
      {| backend.outcome := Ok tt; backend.retired_count := k; backend.final := m2 |}
| time_limit_exceeded m1 h1 m2 :
    rounds (Z.to_nat T) m hint0 = Some (m1, h1) ->
    advance m1 = (true, m2) ->
    behaviour m T
      {| backend.outcome := panic "Time Limit Exceeded";
         backend.retired_count := Z.to_nat T; backend.final := m2 |}
| raises k m1 h1 m2 e m3 :
    Z.of_nat k < T ->
    rounds k m hint0 = Some (m1, h1) ->
    advance m1 = (true, m2) ->
    execute m2 h1 = backend.Raised e m3 ->
    behaviour m T (backend.after_loop what (backend.Thrown e m3 k)).
End Behaviour.

(** The opcodes of the disassembler table. *)
Definition table_opcodes : list Z :=
  [ command.r_type.opcode; command.i_type.opcode; command.s_type.opcode;
    command.l_type.opcode; command.b_type.opcode; command.jal.opcode;
    command.jalr.opcode; command.lui.opcode; command.auipc.opcode ].

(** The number of occurrences of a character. *)
Definition occurrences (c : ascii) (str : string_view) : nat :=
  length (filter (fun d => d = c) str).

(** Writing a string as the body of a string literal: the six characters
    that [find_first_asciz] knows an escape for are escaped, every other
    character stands for itself. *)
Definition escape_char (c : ascii) : string_view :=
  if char_eqb c (ascii_of_nat 10) then [backslash; ascii_of_nat 110]
  else if char_eqb c (ascii_of_nat 9) then [backslash; ascii_of_nat 116]
  else if char_eqb c (ascii_of_nat 13) then [backslash; ascii_of_nat 114]
  else if char_eqb c (ascii_of_nat 0) then [backslash; ascii_of_nat 48]
  else if char_eqb c backslash then [backslash; backslash]
  else if char_eqb c double_quote then [backslash; double_quote]
  else [c].

Definition escape (content : list ascii) : string_view :=
  flat_map escape_char content.

(** An immediate without a PC-relative relocation anywhere inside. *)
Fixpoint pcrel_free (imm : ImmediateBase) : bool :=
  match imm with
  | IntImmediate _ => true
  | StrImmediate _ => true
  | RelImmediate inner operand =>
      match operand with
      | PCREL_HI | PCREL_LO => false
      | HI | LO => pcrel_free inner
      end
  | TreeImmediate data => forallb (fun item => pcrel_free (fst item)) data
  end.

(** The only ways an evaluation ends without a value. *)
Definition link_failure (ev : Evaluator) (e : exception) : Prop :=
  e = AssertionFailed \/
  exists s, e = PanicError (unknown_symbol s) /\
            local_table ev !! s = None /\ global_table ev !! s = None.

(** The four sections in their canonical order. *)
Definition sections (result : interpreter.LinkResult) : list interpreter.LinkResult_Section :=
  [ interpreter.text result; interpreter.data result;
    interpreter.rodata result; interpreter.bss result ].

(** A section whose end is computed without wrapping around. *)
Definition fits (section : interpreter.LinkResult_Section) : Prop :=
  0 <= interpreter.start section /\
  interpreter.start section + interpreter.storage_size section <= SIZE_MAX.

(** The addresses a section occupies. *)
Definition inside (section : interpreter.LinkResult_Section) (address : Z) : Prop :=
  interpreter.start section <= address
    < interpreter.start section + interpreter.storage_size section.

End spec.

(** ** Concrete inputs used by the examples below *)
Module sample.
Import evaluate helper.

(** A file with a local [loop] and its own [msg], linked against globals
    [main] and [msg]; the instruction being relocated sits at 0x10000. *)
Definition ev1 : Evaluator :=
  {| global_table := {[ "main"%string := 0x10000; "msg"%string := 0x11800 ]};
     local_table := {[ "loop"%string := 0x10008; "msg"%string := 0x12000 ]};
     position := 0x10000 |}.

(** The same globals seen from a file without local symbols. *)
Definition ev2 : Evaluator :=
  {| global_table := global_table ev1; local_table := ∅; position := 0x10000 |}.

(** [10 - loop + 4] *)
Definition tree1 : list (ImmediateBase * Operator) :=
  [ (IntImmediate 10, SUB); (StrImmediate "loop", ADD); (IntImmediate 4, END) ].

Definition section_at (base : Z) (size : nat) : interpreter.LinkResult_Section :=
  {| interpreter.start := base; interpreter.storage := replicate size Byte.x00 |}.

(** text [0x10000, 0x10010), data [0x11000, 0x11004), rodata [0x12000,
    0x12003), bss [0x13000, 0x13040). *)
Definition linked1 : interpreter.LinkResult :=
  {| interpreter.text := section_at 0x10000 16;
     interpreter.data := section_at 0x11000 4;
     interpreter.rodata := section_at 0x12000 3;
     interpreter.bss := section_at 0x13000 64;
     interpreter.position_table := {[ "main"%string := 0x10000 ]} |}.

(** As [linked1], with a text of 0x1001 bytes that runs into data. *)
Definition linked2 : interpreter.LinkResult :=
  {| interpreter.text := section_at 0x10000 0x1001;
     interpreter.data := section_at 0x11000 4;
     interpreter.rodata := section_at 0x12000 3;
     interpreter.bss := section_at 0x13000 64;
     interpreter.position_table := {[ "main"%string := 0x10000 ]} |}.

(** Two guests, seen through [advance] and the execution of one
    instruction; the machine state is the count of [advance] calls.
    [halted]: [advance] returns false at once.  [spinning]: the endless
    jump to itself, every instruction retires. *)
Definition halted (m : nat) : bool * nat := (false, S m).
Definition spinning (m : nat) : bool * nat := (true, S m).
Definition retire (m : nat) (hint : unit) : @backend.executed nat unit :=
  backend.Retired m hint.
Definition no_what (e : Error) (m : nat) : string := "trap"%string.

(** A guest whose first load is misaligned. *)
Definition misaligned (m : nat) (hint : unit) : @backend.executed nat unit :=
  backend.Raised (FailToInterpret LoadMisAligned) m.

(** [Interpreter::simulate] on such a guest, reduced to its outcome. *)
Definition simulate_guest (execute : nat -> unit -> @backend.executed nat unit)
    (timeout : Z) (interpreter : unit) : except unit :=
  match backend.simulate_normal spinning execute tt no_what O timeout with
  | Some s => backend.outcome s
  | None => Ok tt
  end.

(** As [linked1], without [main]. *)
Definition linked3 : interpreter.LinkResult :=
  {| interpreter.text := section_at 0x10000 16;
     interpreter.data := section_at 0x11000 4;
     interpreter.rodata := section_at 0x12000 3;
     interpreter.bss := section_at 0x13000 64;
     interpreter.position_table := ∅ |}.

Definition x_name (r : Z) : string := ("x" +:+ command.format_d r)%string.

(** A guest that runs three instructions and then stops. *)
Definition counting (m : nat) : bool * nat := (Nat.ltb m 3, S m).

(** The string made of the letter a and a line feed. *)
Definition a_newline : list ascii := [ascii_of_nat 97; ascii_of_nat 10].

End sample.

(** * Theorems *)

Import evaluate helper spec.

(** ** Machine integers *)

Lemma to_target_idem z : to_target (to_target z) = to_target z.
Proof. unfold to_target. apply Z.mod_mod. unfold target_bits. lia. Qed.

Lemma to_target_add_l a b : to_target (to_target a + b) = to_target (a + b).
Proof. unfold to_target. apply Zplus_mod_idemp_l. Qed.

Lemma to_target_sub_l a b : to_target (to_target a - b) = to_target (a - b).
Proof. unfold to_target. apply Zminus_mod_idemp_l. Qed.

Lemma to_target_range z : 0 <= to_target z < 2 ^ 32.
Proof. unfold to_target, target_bits. apply Z.mod_pos_bound. lia. Qed.

(** Shifting the 64-bit difference and keeping 32 bits is shifting the
    exact difference: the bits that the wrap-around cuts are never kept. *)
Lemma shiftr_of_size x :
  to_target (Z.shiftr (to_size x) 12) = to_target (Z.shiftr x 12).
Proof.
  unfold to_target, to_size, target_bits, size_bits.
  apply Z.bits_inj'. intros n Hn.
  destruct (Z.lt_ge_cases n 32) as [Hlt | Hge].
  - rewrite !Z.mod_pow2_bits_low by lia.
    rewrite !Z.shiftr_spec by lia.
    rewrite Z.mod_pow2_bits_low by lia. reflexivity.
  - rewrite !Z.mod_pow2_bits_high by lia. reflexivity.
Qed.

Lemma land_of_size x :
  to_target (Z.land (to_size x) 0xFFF) = x mod 4096.
Proof.
  unfold to_target, to_size, target_bits, size_bits.
  change 0xFFF with (Z.ones 12). rewrite Z.land_ones by lia.
  rewrite (Z.mod_mod_divide x (2 ^ 64) (2 ^ 12)) by (exists (2 ^ 52); reflexivity).
  change (2 ^ 12) with 4096. apply Z.mod_small.
  pose proof (Z.mod_pos_bound x 4096). lia.
Qed.

(** ** linker/evaluate.h *)

Lemma evaluate_rel ev inner operand v :
  evaluate ev inner = Ok v ->
  evaluate ev (RelImmediate inner operand) =
    match operand with
    | HI => Ok (hi (split_lo_hi v))
    | LO => Ok (lo (split_lo_hi v))
    | PCREL_HI => Ok (to_target (Z.shiftr (to_size (v - position ev)) 12))
    | PCREL_LO => Ok (to_target (Z.land (to_size (v - position ev)) 0xFFF))
    end.
Proof. intros H. cbn [evaluate]. rewrite H. reflexivity. Qed.

(** What the evaluator returns for Rel(PCREL_HI, inner) at position p,
    where inner evaluates to v: (v - p) >> 12 kept to 32 bits, with no
    rounding bias. *)
Lemma evaluate_pcrel_hi ev inner v :
  evaluate ev inner = Ok v ->
  evaluate ev (RelImmediate inner PCREL_HI)
    = Ok (to_target (Z.shiftr (v - position ev) 12)).
Proof.
  intros Hv. rewrite (evaluate_rel _ _ PCREL_HI _ Hv), shiftr_of_size. reflexivity.
Qed.

(** The PCREL pair of the evaluator rebuilds the displacement when the low
    half is read as an unsigned number. *)
Lemma pcrel_pair_unsigned ev inner v h l :
  evaluate ev inner = Ok v ->
  evaluate ev (RelImmediate inner PCREL_HI) = Ok h ->
  evaluate ev (RelImmediate inner PCREL_LO) = Ok l ->
  to_target (Z.shiftl h 12 + l) = to_target (v - position ev).
Proof.
  intros Hv Hh Hl.
  rewrite (evaluate_pcrel_hi _ _ _ Hv) in Hh.
  rewrite (evaluate_rel _ _ PCREL_LO _ Hv), land_of_size in Hl.
  injection Hh as <-. injection Hl as <-.
  set (x := v - position ev).
  rewrite Z.shiftl_mul_pow2, Z.shiftr_div_pow2 by lia.
  unfold to_target, target_bits. change (2 ^ 12) with 4096.
  rewrite Zplus_mod, Zmult_mod_idemp_l, <- Zplus_mod.
  f_equal. pose proof (Z.div_mod x 4096). lia.
Qed.

(** An instruction reads its 12-bit immediate as a signed number: then the
    pair rebuilds the displacement only when bit 11 of it is clear, and
    falls 0x1000 short otherwise. *)
Lemma pcrel_pair_signed ev inner v h l :
  evaluate ev inner = Ok v ->
  evaluate ev (RelImmediate inner PCREL_HI) = Ok h ->
  evaluate ev (RelImmediate inner PCREL_LO) = Ok l ->
  to_target (Z.shiftl h 12 + sign_extend 12 l) =
    to_target (v - position ev
               - (if Z.testbit (v - position ev) 11 then 0x1000 else 0)).
Proof.
  intros Hv Hh Hl.
  pose proof (pcrel_pair_unsigned _ _ _ _ _ Hv Hh Hl) as Hpair.
  rewrite (evaluate_rel _ _ PCREL_LO _ Hv), land_of_size in Hl.
  injection Hl as <-.
  set (x := v - position ev) in *.
  unfold sign_extend. change (2 ^ 12) with 4096. rewrite Z.mod_mod by lia.
  change 4096 with (2 ^ 12) at 1. rewrite Z.mod_pow2_bits_low by lia.
  change (12 - 1) with 11.
  destruct (Z.testbit x 11).
  - replace (Z.shiftl h 12 + (x mod 4096 - 4096))
      with (Z.shiftl h 12 + x mod 4096 - 4096) by lia.
    rewrite <- to_target_sub_l, Hpair, to_target_sub_l. reflexivity.
  - rewrite Hpair. f_equal. lia.
Qed.

(** C3 (amended). For an immediate Rel(PCREL_LO, inner) at position p, where
    inner evaluates to v, the evaluator returns the low 12 bits of v - p
    zero-extended: a value between 0 and 0xFFF, never a negative one. *)
Theorem evaluate_pcrel_lo ev inner v :
  evaluate ev inner = Ok v ->
  evaluate ev (RelImmediate inner PCREL_LO) = Ok (Z.land (v - position ev) 0xFFF) /\
  0 <= Z.land (v - position ev) 0xFFF <= 0xFFF.
Proof.
  intros Hv.
  rewrite (evaluate_rel _ _ PCREL_LO _ Hv), land_of_size.
  change 0xFFF with (Z.ones 12). rewrite Z.land_ones by lia.
  change (2 ^ 12) with 4096. split; [reflexivity |].
  pose proof (Z.mod_pos_bound (v - position ev) 4096).
  change (Z.ones 12) with 4095. lia.
Qed.

(** C7. A symbol is looked up in the local table of the current file first;
    the global table is consulted only when the local one does not have it;
    a symbol in neither table ends the link with the unknown-symbol panic. *)
Theorem symbol_lookup_order ev s :
  (forall l, local_table ev !! s = Some l ->
     evaluate ev (StrImmediate s) = Ok (to_target l)) /\
  (forall g, local_table ev !! s = None -> global_table ev !! s = Some g ->
     evaluate ev (StrImmediate s) = Ok (to_target g)) /\
  (local_table ev !! s = None -> global_table ev !! s = None ->
     evaluate ev (StrImmediate s) = Throw (PanicError (unknown_symbol s))).
Proof.
  cbn [evaluate]. unfold get_symbol_position.
  repeat split.
  - intros l ->. reflexivity.
  - intros g -> ->. reflexivity.
  - intros -> ->. reflexivity.
Qed.

(** *** The fold of [evaluate_tree] *)

Lemma evaluate_TreeImmediate ev data :
  evaluate ev (TreeImmediate data) = evaluate_tree ev data.
Proof. reflexivity. Qed.

Lemma foldl_tree_step_congr items : forall a b,
  to_target a = to_target b ->
  to_target (foldl tree_step a items) = to_target (foldl tree_step b items).
Proof.
  induction items as [| item items IH]; intros a b Hab; cbn [foldl]; [exact Hab |].
  apply IH. unfold tree_step.
  rewrite <- (to_target_add_l a), <- (to_target_add_l b), Hab. reflexivity.
Qed.

Lemma evaluate_tree_loop_spec eval init values sub_n op_n v_n :
  Forall2 (fun item v => eval (fst item) = Ok v) init values ->
  Forall (fun item => snd item <> END) init ->
  eval sub_n = Ok v_n ->
  forall last_op acc, last_op <> END ->
  evaluate_tree_loop eval (init ++ [(sub_n, op_n)]) last_op acc =
    if bool_decide (op_n = END)
    then Ok (to_target (foldl tree_step acc
                          (zip (last_op :: map snd init) (values ++ [v_n]))))
    else Throw AssertionFailed.
Proof.
  intros Hvalues. induction Hvalues as [| [sub op] v init values Hv _ IH];
    intros Hops Hn last_op acc Hlast.
  - cbn. rewrite Hn. cbn.
    destruct last_op; [| | congruence]; cbn;
      unfold runtime_assert; destruct (bool_decide (op_n = END)); cbn;
      try reflexivity; unfold tree_step; cbn; do 2 f_equal; lia.
  - inversion Hops as [| ? ? Hop Hops']; subst. cbn in Hv, Hop.
    cbn [app evaluate_tree_loop]. rewrite Hv. cbn [bind].
    destruct last_op; [| | congruence].
    + rewrite (IH Hops' Hn op _ Hop).
      destruct (bool_decide (op_n = END)); [| reflexivity].
      f_equal. cbn. apply foldl_tree_step_congr.
      unfold tree_step. cbn. apply to_target_idem.
    + rewrite (IH Hops' Hn op _ Hop).
      destruct (bool_decide (op_n = END)); [| reflexivity].
      f_equal. cbn. apply foldl_tree_step_congr.
      unfold tree_step. cbn. rewrite to_target_idem. reflexivity.
Qed.

(** C6. A Tree is folded from left to right: the result starts at 0, the
    first element is added, every later element is added or subtracted
    according to the operator carried by the element before it, and the
    operator carried by the last element must be END, otherwise the
    evaluation fails on its assertion. *)
Theorem evaluate_tree_fold ev init values sub_n op_n v_n :
  Forall2 (fun item v => evaluate ev (fst item) = Ok v) init values ->
  Forall (fun item => snd item <> END) init ->
  evaluate ev sub_n = Ok v_n ->
  evaluate ev (TreeImmediate (init ++ [(sub_n, op_n)])) =
    if bool_decide (op_n = END)
    then Ok (to_target (tree_sum (map snd init) (values ++ [v_n])))
    else Throw AssertionFailed.
Proof.
  intros Hvalues Hops Hn. cbn [evaluate].
  rewrite (evaluate_tree_loop_spec _ _ _ _ _ _ Hvalues Hops Hn) by discriminate.
  reflexivity.
Qed.

(** ** assembly/helper.h *)

Lemma char_eqb_eq a b : char_eqb a b = true <-> a = b.
Proof. apply Ascii.eqb_eq. Qed.

Lemma char_eqb_refl a : char_eqb a a = true.
Proof. apply char_eqb_eq. reflexivity. Qed.

Lemma find_first_of_None c str : find_first_of c str = None <-> c ∉ str.
Proof.
  induction str as [| d str IH]; cbn.
  - split; [intros _; apply not_elem_of_nil | reflexivity].
  - destruct (char_eqb d c) eqn:E.
    + apply char_eqb_eq in E as ->. split; [discriminate |].
      intros H. exfalso. apply H. left.
    + assert (c <> d) as Hne
        by (intros ->; rewrite char_eqb_refl in E; discriminate).
      rewrite not_elem_of_cons, <- IH.
      destruct (find_first_of c str); cbn.
      * split; [discriminate | intros [_ H]; discriminate].
      * split; [intros _; split; [exact Hne | reflexivity] | reflexivity].
Qed.

Lemma find_first_of_Some c str pos :
  find_first_of c str = Some pos ->
  str !! pos = Some c /\ (c ∉ take pos str) /\ (pos < length str)%nat.
Proof.
  revert pos. induction str as [| d str IH]; intros pos; cbn; [discriminate |].
  destruct (char_eqb d c) eqn:E.
  - apply char_eqb_eq in E as ->. intros [= <-]. cbn.
    split; [reflexivity |]. split; [apply not_elem_of_nil | lia].
  - destruct (find_first_of c str) as [p |]; cbn; [| discriminate].
    intros [= <-]. destruct (IH p eq_refl) as (H1 & H2 & H3). cbn.
    split; [exact H1 |]. split; [| lia].
    rewrite not_elem_of_cons. split; [| exact H2].
    intros ->. rewrite char_eqb_refl in E. discriminate.
Qed.

(** *** Whitespace removal *)

Lemma remove_front_whitespace_suffix str : remove_front_whitespace str `suffix_of` str.
Proof.
  induction str as [| c str IH]; cbn; [reflexivity |].
  destruct (isspace c); [| reflexivity].
  apply suffix_cons_r, IH.
Qed.

Lemma remove_front_whitespace_clean str : starts_clean (remove_front_whitespace str).
Proof.
  unfold starts_clean. induction str as [| c str IH]; cbn; [discriminate |].
  destruct (isspace c) eqn:E; [exact IH |].
  cbn. intros d [= <-]. exact E.
Qed.

(** The loop of [remove_back_whitespace], one character at a time. *)
Lemma remove_back_whitespace_snoc str c :
  remove_back_whitespace (str ++ [c]) =
    if isspace c then remove_back_whitespace str else str ++ [c].
Proof.
  unfold remove_back_whitespace. rewrite reverse_snoc.
  cbn [remove_front_whitespace].
  destruct (isspace c); [reflexivity |].
  rewrite reverse_cons, reverse_involutive. reflexivity.
Qed.

Lemma remove_back_whitespace_prefix str : remove_back_whitespace str `prefix_of` str.
Proof.
  unfold remove_back_whitespace.
  apply prefix_suffix_reverse. rewrite reverse_involutive.
  apply remove_front_whitespace_suffix.
Qed.

Lemma remove_back_whitespace_clean str : ends_clean (remove_back_whitespace str).
Proof.
  unfold ends_clean, remove_back_whitespace. intros c.
  rewrite last_reverse. apply remove_front_whitespace_clean.
Qed.

Lemma strip_clean str : starts_clean (strip str) /\ ends_clean (strip str).
Proof.
  split; [| apply remove_back_whitespace_clean].
  unfold starts_clean, strip. intros c Hc.
  destruct (remove_back_whitespace_prefix (remove_front_whitespace str)) as [k Hk].
  apply (remove_front_whitespace_clean str). rewrite Hk.
  destruct (remove_back_whitespace (remove_front_whitespace str)); [discriminate |].
  exact Hc.
Qed.

(** *** Cutting at the commas *)

Lemma isspace_not_comma c : isspace c = true -> char_eqb c comma = false.
Proof.
  intros H. destruct (char_eqb c comma) eqn:E; [| reflexivity].
  apply char_eqb_eq in E. subst c. vm_compute in H. discriminate.
Qed.

Lemma no_comma_after_front_whitespace str :
  find_first_of comma str = None ->
  find_first_of comma (remove_front_whitespace str) = None.
Proof.
  induction str as [| c str IH]; cbn; [reflexivity |].
  destruct (isspace c) eqn:Hc.
  - rewrite (isspace_not_comma _ Hc).
    destruct (find_first_of comma str); cbn; [discriminate | intros _; apply IH; reflexivity].
  - cbn. intros H. exact H.
Qed.

(** Leading whitespace does not move the first comma: the field before it
    and the text after it are the same, up to the stripped whitespace. *)
Lemma comma_after_front_whitespace str : forall pos,
  find_first_of comma str = Some pos ->
  exists pos',
    find_first_of comma (remove_front_whitespace str) = Some pos' /\
    remove_back_whitespace (take pos' (remove_front_whitespace str))
      = strip (take pos str) /\
    drop (S pos') (remove_front_whitespace str) = drop (S pos) str.
Proof.
  induction str as [| c str IH]; intros pos; [discriminate |].
  destruct (isspace c) eqn:Hc.
  - cbn [find_first_of]. rewrite (isspace_not_comma _ Hc).
    destruct (find_first_of comma str) as [p |] eqn:Hp; cbn; [| discriminate].
    intros [= <-]. rewrite Hc.
    destruct (IH p eq_refl) as (pos' & H1 & H2 & H3).
    exists pos'. split; [exact H1 |]. split; [| exact H3].
    rewrite H2. unfold strip. cbn. rewrite Hc. reflexivity.
  - intros Hpos. exists pos.
    cbn [remove_front_whitespace]. rewrite Hc.
    split; [exact Hpos |]. split; [| reflexivity].
    unfold strip. destruct pos; cbn; [reflexivity |]. rewrite Hc. reflexivity.
Qed.

Lemma split_command_loop_eq remaining str ret :
  split_command_loop remaining str ret =
    match find_first_of comma str with
    | None => Throw (FailToParse "Too few arguments")
    | Some pos =>
        let ret := ret ++ [remove_back_whitespace (take pos str)] in
        let str := remove_front_whitespace (drop (pos + 1) str) in
        match remaining with
        | S (S _ as remaining') => split_command_loop remaining' str ret
        | _ => Ok (ret ++ [remove_back_whitespace str])
        end
    end.
Proof. destruct remaining; reflexivity. Qed.

Lemma fields_S k str :
  fields (S k) str =
    match find_first_of comma str with
    | Some pos => cons (take pos str) <$> fields k (drop (S pos) str)
    | None => None
    end.
Proof. reflexivity. Qed.

Lemma split_command_loop_spec n : forall str ret,
  split_command_loop (S n) (remove_front_whitespace str) ret =
    match fields (S n) str with
    | Some fs => Ok (ret ++ (strip <$> fs))
    | None => Throw (FailToParse "Too few arguments")
    end.
Proof.
  induction n as [| n IH]; intros str ret;
    rewrite split_command_loop_eq, fields_S;
    (destruct (find_first_of comma str) as [pos |] eqn:Hpos;
     [| rewrite (no_comma_after_front_whitespace _ Hpos); reflexivity]);
    destruct (comma_after_front_whitespace _ _ Hpos) as (pos' & -> & H2 & H3);
    cbv zeta; rewrite Nat.add_1_r, H2, H3.
  - cbn. rewrite <- app_assoc. reflexivity.
  - rewrite IH.
    destruct (fields (S n) (drop (S pos) str)) as [fs |]; cbn; [| reflexivity].
    rewrite <- app_assoc. reflexivity.
Qed.

Lemma remove_comments_when_no_string_spec str :
  remove_comments_when_no_string str =
    if bool_decide (double_quote ∈ str) then Throw (FailToParse no_message)
    else Ok (uncommented str).
Proof.
  unfold remove_comments_when_no_string, uncommented.
  destruct (find_first_of double_quote str) as [pos |] eqn:Hq.
  - rewrite bool_decide_eq_true_2 by discriminate.
    rewrite bool_decide_eq_true_2; [reflexivity |].
    apply find_first_of_Some in Hq as (H & _). eapply list_elem_of_lookup_2, H.
  - rewrite bool_decide_eq_false_2 by (intros H; apply H; reflexivity).
    apply find_first_of_None in Hq. rewrite bool_decide_eq_false_2 by exact Hq.
    cbn. destruct (find_first_of hash str); [reflexivity |].
    rewrite firstn_all. reflexivity.
Qed.

(** [split_command<_N>] against the specification-side cut, for [_N >= 1]. *)
Lemma split_command_fields n str :
  split_command (S n) str =
    if bool_decide (double_quote ∈ str) then Throw (FailToParse no_message)
    else match fields n (uncommented str) with
         | Some fs => Ok (strip <$> fs)
         | None => Throw (FailToParse "Too few arguments")
         end.
Proof.
  unfold split_command. rewrite remove_comments_when_no_string_spec.
  destruct (bool_decide (double_quote ∈ str)); [reflexivity |]. cbn [bind].
  destruct n as [| n]; [reflexivity |].
  rewrite split_command_loop_spec. reflexivity.
Qed.

Lemma fields_length n : forall str fs, fields n str = Some fs -> length fs = S n.
Proof.
  induction n as [| n IH]; intros str fs; cbn.
  - intros [= <-]. reflexivity.
  - destruct (find_first_of comma str) as [pos |]; [| discriminate].
    destruct (fields n (drop (S pos) str)) as [fs' |] eqn:E; cbn; [| discriminate].
    intros [= <-]. cbn. f_equal. eapply IH, E.
Qed.

Lemma occurrences_find c str :
  match find_first_of c str with
  | Some pos => occurrences c str = S (occurrences c (drop (S pos) str))
  | None => occurrences c str = O
  end.
Proof.
  unfold occurrences. induction str as [| d str IH]; [reflexivity |].
  cbn [find_first_of]. destruct (char_eqb d c) eqn:E.
  - apply char_eqb_eq in E as ->. rewrite filter_cons_True by reflexivity. reflexivity.
  - assert (d <> c) as Hne by (intros ->; rewrite char_eqb_refl in E; discriminate).
    rewrite filter_cons_False by exact Hne.
    destruct (find_first_of c str); exact IH.
Qed.

(** There is a cut at [n] commas exactly when the text has [n] commas. *)
Lemma fields_is_Some n : forall str,
  is_Some (fields n str) <-> (n <= occurrences comma str)%nat.
Proof.
  induction n as [| n IH]; intros str; cbn.
  - split; [lia | eauto].
  - pose proof (occurrences_find comma str) as H.
    destruct (find_first_of comma str) as [pos |].
    + rewrite H, fmap_is_Some, IH. lia.
    + rewrite H. split; [intros [? ?]; discriminate | lia].
Qed.

(** C8 (amended). For N >= 1 (written [S n]) and a remainder without a
    double quote, [split_command<N>] cuts the text before the comment at its
    first N - 1 commas and returns the N fields with surrounding whitespace
    stripped; with fewer than N - 1 commas it raises FailToParse "Too few
    arguments".  So for N = 1 nothing is ever too few: the whole stripped
    remainder is the token, also when it is empty.  A remainder with a double
    quote raises FailToParse, and for N = 0 FailToParse is raised unless the
    remainder contains no token. *)
Theorem split_command_tokens n str :
  split_command 0 str =
    (if contain_no_token str then Ok [] else Throw (FailToParse no_message)) /\
  (double_quote ∈ str -> split_command (S n) str = Throw (FailToParse no_message)) /\
  (double_quote ∉ str ->
     ((occurrences comma (uncommented str) < n)%nat ->
        split_command (S n) str = Throw (FailToParse "Too few arguments")) /\
     ((n <= occurrences comma (uncommented str))%nat ->
        exists fs,
          fields n (uncommented str) = Some fs /\
          split_command (S n) str = Ok (strip <$> fs) /\
          length (strip <$> fs) = S n /\
          Forall (fun token => starts_clean token /\ ends_clean token) (strip <$> fs))).
Proof.
  split; [| split].
  - unfold split_command. destruct (contain_no_token str); reflexivity.
  - intros Hq. rewrite split_command_fields, bool_decide_eq_true_2 by exact Hq.
    reflexivity.
  - intros Hq. rewrite split_command_fields, bool_decide_eq_false_2 by exact Hq.
    pose proof (fields_is_Some n (uncommented str)) as Hsome.
    split; intros Hn.
    + destruct (fields n (uncommented str)) as [fs |] eqn:E; [| reflexivity].
      exfalso. assert (is_Some (Some fs)) as H by eauto. apply Hsome in H. lia.
    + apply Hsome in Hn as [fs Hfs]. exists fs. rewrite Hfs.
      split; [reflexivity |]. split; [reflexivity |]. split.
      * rewrite length_fmap. eapply fields_length, Hfs.
      * apply Forall_fmap, Forall_forall. intros token _. apply strip_clean.
Qed.

(** C10 (amended). When the first colon of a line precedes any double quote
    and the text before it is empty, the label check passes (the empty
    string is a valid label): [start_with_label] returns the empty label if
    the text after the colon contains no token, and otherwise raises
    FailToParse "Unexpected token after label", as it does for any label. *)
Theorem empty_label_accepted str pos :
  find_first_of colon str = Some pos ->
  before pos (find_first_of double_quote str) = true ->
  take pos str = [] ->
  is_valid_label (take pos str) = true /\
  start_with_label str =
    if contain_no_token (drop (pos + 1) str) then Ok (Some [])
    else Throw (FailToParse "Unexpected token after label").
Proof.
  intros Hcolon Hbefore Hempty. unfold start_with_label.
  rewrite Hcolon, Hbefore, Hempty. cbn.
  split; [reflexivity |].
  destruct (contain_no_token (drop (pos + 1) str)); reflexivity.
Qed.

(** ** src/interpreter/interpreter.cpp *)

Lemma check_no_overlap_spec result :
  interpreter.check_no_overlap result =
    if bool_decide (ordered result) then Ok tt else Throw AssertionFailed.
Proof.
  unfold interpreter.check_no_overlap, ordered, section_end, runtime_assert.
  unfold interpreter.get_start_end. cbn [fst snd].
  case_bool_decide as H.
  - destruct H as (H1 & H2 & H3).
    apply Z.leb_le in H1, H2, H3. rewrite H1, H2, H3. reflexivity.
  - destruct (_ && _) eqn:E; [| reflexivity].
    exfalso. apply H. apply andb_true_iff in E as [E H3].
    apply andb_true_iff in E as [H1 H2].
    apply Z.leb_le in H1, H2, H3. auto.
Qed.

(** C9. Once the interpreter has been built from the link result, each
    section of the order text, data, rodata, bss ends (start + storage size)
    at or before the start of the next one; a link result with an overlap
    ends the construction on the failed assertion. *)
Theorem no_overlap_after_link get_result :
  (forall result, interpreter.Interpreter_new get_result = Ok result -> ordered result) /\
  (forall result,
     get_result = Ok result ->
     is_Some (interpreter.position_table result !! "main"%string) ->
     ~ ordered result ->
     interpreter.Interpreter_new get_result = Throw AssertionFailed) /\
  (forall section,
     0 <= interpreter.start section ->
     interpreter.start section + interpreter.storage_size section <= SIZE_MAX ->
     section_end section = interpreter.start section + interpreter.storage_size section).
Proof.
  unfold interpreter.Interpreter_new. split; [| split].
  - intros result. destruct get_result as [r | e]; cbn [bind]; [| discriminate].
    destruct (panic_if _ _); cbn [bind]; [| discriminate].
    rewrite check_no_overlap_spec. case_bool_decide as H; cbn [bind]; [| discriminate].
    intros [= <-]. exact H.
  - intros result -> [a Hmain] Hoverlap. cbn [bind].
    rewrite bool_decide_eq_false_2 by (rewrite Hmain; discriminate).
    cbn [panic_if bind].
    rewrite check_no_overlap_spec, bool_decide_eq_false_2 by exact Hoverlap.
    reflexivity.
  - intros section H0 Hmax. unfold section_end, interpreter.get_start_end, to_size.
    cbn [snd]. apply Z.mod_small.
    unfold SIZE_MAX in Hmax. unfold interpreter.storage_size in *. lia.
Qed.

(** ** src/interpreter/backend.cpp *)

Section Simulate_facts.
Context {Machine Hint : Type}.
Variable advance : Machine -> bool * Machine.
Variable execute : Machine -> Hint -> @backend.executed Machine Hint.
Variable hint0 : Hint.
Variable what : Error -> Machine -> string.

Local Abbreviation while_loop := (backend.while_loop advance execute).
Local Abbreviation rounds := (spec.rounds advance execute).
Local Abbreviation simulate_normal := (backend.simulate_normal advance execute hint0 what).

Lemma to_size_small z : 0 <= z <= SIZE_MAX -> to_size z = z.
Proof. unfold to_size, SIZE_MAX. intros H. apply Z.mod_small. lia. Qed.

Lemma to_size_below_zero : to_size (0 - 1) = SIZE_MAX.
Proof. reflexivity. Qed.

Lemma rounds_S k m hint m1 m2 h2 :
  advance m = (true, m1) ->
  execute m1 hint = backend.Retired m2 h2 ->
  rounds (S k) m hint = rounds k m2 h2.
Proof. intros Ha He. cbn [spec.rounds]. rewrite Ha, He. reflexivity. Qed.

(** With fuel for one round more than the budget, the loop is left, and
    in one of the three specified ways. *)
Lemma while_loop_behaviour fuel : forall timeout m hint retired,
  0 <= timeout <= SIZE_MAX ->
  (Z.to_nat timeout < fuel)%nat ->
  exists exit,
    while_loop fuel timeout m hint retired = Some exit /\
    loop_behaviour advance execute timeout m hint retired exit.
Proof.
  induction fuel as [| fuel IH]; intros timeout m hint retired Ht Hfuel; [lia |].
  cbn [backend.while_loop].
  destruct (advance m) as [continue m1] eqn:Ha.
  destruct continue.
  - destruct (timeout >? 0) eqn:Hpos.
    + apply Z.gtb_lt in Hpos.
      destruct (execute m1 hint) as [m2 h2 | e m3] eqn:He.
      * rewrite to_size_small by lia.
        destruct (IH (timeout - 1) m2 h2 (S retired)) as (exit & -> & Hexit);
          [lia | lia |].
        exists exit. split; [reflexivity |].
        destruct Hexit as [k m1' h1' m2' Hk Hr Ha' | m1' h1' m2' Hr Ha'
                          | k m1' h1' m2' e m3 Hk Hr Ha' He'].
        -- replace (timeout - 1 - Z.of_nat k) with (timeout - Z.of_nat (S k)) by lia.
           replace (S retired + k)%nat with (retired + S k)%nat by lia.
           eapply loop_stops; [lia | | exact Ha'].
           rewrite (rounds_S _ _ _ _ _ _ Ha He). exact Hr.
        -- replace (S retired + Z.to_nat (timeout - 1))%nat
             with (retired + Z.to_nat timeout)%nat by lia.
           eapply loop_exhausts; [| exact Ha'].
           replace (Z.to_nat timeout) with (S (Z.to_nat (timeout - 1))) by lia.
           rewrite (rounds_S _ _ _ _ _ _ Ha He). exact Hr.
        -- replace (S retired + k)%nat with (retired + S k)%nat by lia.
           eapply loop_raises; [lia | | exact Ha' | exact He'].
           rewrite (rounds_S _ _ _ _ _ _ Ha He). exact Hr.
      * eexists. split; [reflexivity |].
        replace retired with (retired + 0)%nat at 2 by lia.
        eapply loop_raises; [cbn; lia | reflexivity | exact Ha | exact He].
    + assert (timeout = 0) as -> by (rewrite Z.gtb_ltb in Hpos; apply Z.ltb_ge in Hpos; lia).
      eexists. split; [reflexivity |].
      rewrite to_size_below_zero.
      replace retired with (retired + Z.to_nat 0)%nat at 2 by (cbn; lia).
      eapply loop_exhausts; [reflexivity | exact Ha].
  - eexists. split; [reflexivity |].
    replace timeout with (timeout - Z.of_nat 0) at 2 by (cbn; lia).
    replace retired with (retired + 0)%nat at 2 by lia.
    eapply loop_stops; [cbn; lia | reflexivity | exact Ha].
Qed.

(** X19. [simulate_normal] returns for every [std::size_t] time limit and
    every guest: the loop is left after at most one round more than the
    limit. *)
Lemma simulate_normal_returns m T :
  0 <= T <= SIZE_MAX -> is_Some (simulate_normal m T).
Proof.
  intros HT. unfold backend.simulate_normal.
  destruct (while_loop_behaviour (S (Z.to_nat T)) T m hint0 O) as (exit & -> & _);
    [lia | lia |].
  cbn. eauto.
Qed.

(** For every budget below the largest [std::size_t], [simulate_normal]
    returns, retires at most [T] instructions, and does what the
    specification says. *)
Lemma simulate_normal_behaviour m T :
  0 <= T < SIZE_MAX ->
  exists s,
    simulate_normal m T = Some s /\
    Z.of_nat (backend.retired_count s) <= T /\
    behaviour advance execute hint0 what m T s.
Proof.
  intros HT. unfold backend.simulate_normal.
  destruct (while_loop_behaviour (S (Z.to_nat T)) T m hint0 O) as (exit & -> & Hexit);
    [lia | lia |].
  eexists. split; [reflexivity |].
  destruct Hexit as [k m1 h1 m2 Hk Hr Ha | m1 h1 m2 Hr Ha | k m1 h1 m2 e m3 Hk Hr Ha He].
  - cbn [backend.after_loop]. rewrite to_size_small by lia.
    destruct (Z.eqb_spec (T - Z.of_nat k + 1) 0) as [E | _]; [lia |].
    cbn. split; [lia |]. eapply stops_cleanly; eauto.
  - cbn. split; [lia |]. eapply time_limit_exceeded; eauto.
  - split; [destruct e; cbn; lia |]. eapply raises; eauto.
Qed.

(** When the first [advance] already returns false, the loop body never
    runs and the budget is handed to the check after the loop as it came. *)
Lemma simulate_normal_stops_at_once m m' T :
  advance m = (false, m') ->
  simulate_normal m T =
    Some {| backend.outcome := panic_if (to_size (T + 1) =? 0) "Time Limit Exceeded";
            backend.retired_count := 0; backend.final := m' |}.
Proof.
  intros Ha. unfold backend.simulate_normal. cbn [backend.while_loop].
  rewrite Ha. reflexivity.
Qed.

End Simulate_facts.

Section Time_limit.
Context {Machine Hint : Type}.
Variable advance : Machine -> bool * Machine.
Variable execute : Machine -> Hint -> @backend.executed Machine Hint.

Local Abbreviation while_loop := (backend.while_loop advance execute).
Local Abbreviation rounds := (spec.rounds advance execute).

Lemma rounds_add k : forall j m hint,
  rounds (k + j) m hint =
    match rounds k m hint with
    | Some (m1, h1) => rounds j m1 h1
    | None => None
    end.
Proof.
  induction k as [| k IH]; intros j m hint; [reflexivity |].
  cbn [Nat.add spec.rounds].
  destruct (advance m) as [[] m1]; [| reflexivity].
  destruct (execute m1 hint); [apply IH | reflexivity].
Qed.

(** After [T] full rounds [advance] says "continue": no earlier [advance]
    said "stop" and no earlier instruction raised. *)
Lemma rounds_then_continue T k m hint m1 h1 m2 mk hk :
  rounds T m hint = Some (m1, h1) ->
  advance m1 = (true, m2) ->
  (k <= T)%nat ->
  rounds k m hint = Some (mk, hk) ->
  exists mk', advance mk = (true, mk') /\
    (k < T -> exists m' h', execute mk' hk = backend.Retired m' h')%nat.
Proof.
  intros HT Ha Hk Hrk.
  replace T with (k + (T - k))%nat in HT by lia.
  rewrite rounds_add, Hrk in HT.
  destruct (T - k)%nat as [| j] eqn:Hj.
  - cbn in HT. injection HT as -> ->. exists m2. split; [exact Ha | lia].
  - cbn [spec.rounds] in HT.
    destruct (advance mk) as [[] mk']; [| discriminate].
    exists mk'. split; [reflexivity |]. intros _.
    destruct (execute mk' hk); [eauto | discriminate].
Qed.

(** X21. For a budget below the largest [std::size_t]: the loop is left with
    the wrapped-around [timeout], which is what the check after the loop
    reports as "Time Limit Exceeded", exactly when [T] instructions were
    retired and [advance] returned true every time, the time after the
    last retirement included. *)
Lemma time_limit_iff m hint T exit :
  0 <= T < SIZE_MAX ->
  while_loop (S (Z.to_nat T)) T m hint O = Some exit ->
  (exists m' retired,
      exit = backend.Ended SIZE_MAX m' retired) <->
  (exists m1 h1 m2,
      rounds (Z.to_nat T) m hint = Some (m1, h1) /\ advance m1 = (true, m2)).
Proof.
  intros HT Hloop.
  destruct (while_loop_behaviour advance execute (S (Z.to_nat T)) T m hint O)
    as (exit' & Hloop' & Hexit); [lia | lia |].
  rewrite Hloop in Hloop'. injection Hloop' as <-.
  destruct Hexit as [k m1 h1 m2 Hk Hr Ha | m1 h1 m2 Hr Ha | k m1 h1 m2 e m3 Hk Hr Ha He].
  - split.
    + intros (m' & retired & [= E _ _]). lia.
    + intros (m1' & h1' & m2' & Hr' & Ha').
      destruct (rounds_then_continue _ k _ _ _ _ _ _ _ Hr' Ha' ltac:(lia) Hr)
        as (mk' & Hc & _).
      rewrite Ha in Hc. discriminate.
  - split; eauto.
  - split.
    + intros (m' & retired & [=]).
    + intros (m1' & h1' & m2' & Hr' & Ha').
      destruct (rounds_then_continue _ k _ _ _ _ _ _ _ Hr' Ha' ltac:(lia) Hr)
        as (mk' & Hc & Hretire).
      rewrite Ha in Hc. injection Hc as <-.
      destruct Hretire as (m' & h' & Hretire); [lia |].
      rewrite He in Hretire. discriminate.
Qed.

End Time_limit.

(** C4 (the code at the failing input). With the largest [std::size_t] as
    timeout and a guest whose first [advance] returns false, no instruction
    is retired and still "Time Limit Exceeded" is reported: the timeout
    that was never decremented is taken for one that wrapped around. *)
Theorem time_limit_without_retirement :
  backend.simulate_normal sample.halted sample.retire tt sample.no_what O SIZE_MAX =
    Some {| backend.outcome := Throw (PanicError "Time Limit Exceeded");
            backend.retired_count := 0;
            backend.final := 1%nat |}.
Proof.
  rewrite (simulate_normal_stops_at_once _ _ _ _ O 1%nat) by reflexivity.
  reflexivity.
Qed.

(** ** src/interpreter/command.cpp *)

Lemma switch_default {A} key (cases : list (Z * A)) default :
  key ∉ cases.*1 -> command.switch key cases default = default.
Proof.
  unfold command.switch. induction cases as [| [k a] cases IH]; cbn; [reflexivity |].
  intros H. apply not_elem_of_cons in H as [Hne H].
  destruct (Z.eqb_spec k key) as [-> | _]; [congruence |]. apply IH, H.
Qed.

(** X24. A word whose opcode is not in the table goes to [default_format],
    which writes the base prefix twice. *)
Lemma pretty_command_default reg_to_sv cmd :
  command.get_opcode cmd ∉ table_opcodes ->
  command.pretty_command reg_to_sv cmd = ("0x0x" +:+ command.format_x cmd)%string.
Proof.
  intros H. unfold command.pretty_command.
  rewrite switch_default by exact H. reflexivity.
Qed.

(** The same goes for a word with the R-type opcode whose funct7 and funct3
    match no row of the R-type table. *)
Lemma pretty_r_type_default reg_to_sv cmd :
  Z.lor (Z.shiftl (command.get_funct7 cmd) 3) (command.get_funct3 cmd)
    ∉ [ 0; 0x100; 1; 2; 3; 4; 5; 0x105; 6; 7 ] ->
  command.pretty_r_type reg_to_sv cmd = ("0x0x" +:+ command.format_x cmd)%string.
Proof.
  intros H. unfold command.pretty_r_type.
  rewrite switch_default by exact H. reflexivity.
Qed.

(** C5 (the code at failing inputs). The all-zero word, the all-one word
    and a multiplication (R-type opcode, funct7 = 1) match nothing in the
    table; each is rendered with the prefix written twice, "0x0x...". *)
Theorem unknown_encoding_rendering reg_to_sv :
  command.pretty_command reg_to_sv 0 = "0x0x0"%string /\
  command.pretty_command reg_to_sv 0xFFFFFFFF = "0x0xffffffff"%string /\
  command.pretty_command reg_to_sv 0x02A50533 = "0x0x2a50533"%string.
Proof. repeat split. Qed.

(** ** src/main.cpp *)

(** C1 (amended). [main] returns 0 when the run terminates normally, and
    it returns 0 as well when a panic aborts the run: the handler of the
    panic sentinel does nothing and falls through to the same [return 0].
    [main] has no other return value. *)
Theorem main_exit_code {Config Interpreter : Type}
    (Config_parse : except Config)
    (Interpreter_new : Config -> except Interpreter)
    (assemble link : Interpreter -> except Interpreter)
    (simulate : Interpreter -> except unit) :
  let try_block := main_cpp.try_block Config_parse Interpreter_new assemble link simulate in
  let main := main_cpp.main Config_parse Interpreter_new assemble link simulate in
  (try_block = Ok tt -> main = main_cpp.Return 0) /\
  (forall message, try_block = Throw (PanicError message) -> main = main_cpp.Return 0) /\
  (forall code, main = main_cpp.Return code -> code = 0).
Proof.
  cbv zeta. unfold main_cpp.main.
  split; [| split].
  - intros ->. reflexivity.
  - intros message ->. reflexivity.
  - intros code. destruct (main_cpp.try_block _ _ _ _ _) as [[] | []];
      intros [=]; congruence.
Qed.

(** X22. A trap of the guest never leaves [simulate_normal] as such: it is
    turned into a panic there. *)
Lemma trap_becomes_panic {Machine Hint : Type} advance execute (hint0 : Hint)
    what (m : Machine) T s error :
  backend.simulate_normal advance execute hint0 what m T = Some s ->
  backend.outcome s <> Throw (FailToInterpret error).
Proof.
  unfold backend.simulate_normal.
  destruct (backend.while_loop _ _ _ _ _ _ _) as [[t m' r | e m' r] |]; cbn; [| | discriminate].
  - intros [= <-]. cbn. unfold panic_if. destruct (_ =? _); discriminate.
  - intros [= <-]. destruct e; cbn; unfold panic, unreachable; discriminate.
Qed.

(** ** Examples on concrete inputs *)

(** C2 (the code at the failing input). The symbol lies 0x1800 bytes past
    the instruction.  The evaluator returns 1 for PCREL_HI where the biased
    formula gives 2, and 0x800 for PCREL_LO; an instruction reads that low
    half as -2048, so the pair of the code rebuilds 0x10800 and not the
    address 0x11800 of the symbol, which the biased high part rebuilds. *)
Theorem pcrel_hi_without_bias :
  evaluate sample.ev2 (StrImmediate "msg") = Ok 0x11800 /\
  position sample.ev2 = 0x10000 /\
  evaluate sample.ev2 (RelImmediate (StrImmediate "msg") PCREL_HI) = Ok 1 /\
  Z.shiftr (0x11800 - 0x10000 + 0x800) 12 = 2 /\
  evaluate sample.ev2 (RelImmediate (StrImmediate "msg") PCREL_LO) = Ok 0x800 /\
  0x10000 + Z.shiftl 1 12 + sign_extend 12 0x800 = 0x10800 /\
  0x10000 + Z.shiftl 2 12 + sign_extend 12 0x800 = 0x11800.
Proof. repeat split; vm_compute; reflexivity. Qed.

Lemma evaluate_pcrel_lo_witness :
  evaluate sample.ev2 (RelImmediate (StrImmediate "msg") PCREL_LO) = Ok 0x800 /\
  0 <= Z.land (0x11800 - 0x10000) 0xFFF <= 0xFFF.
Proof.
  apply (evaluate_pcrel_lo sample.ev2 (StrImmediate "msg") 0x11800).
  vm_compute. reflexivity.
Defined.

(** The low 12 bits of the displacement are 0x800: sign-extended they read
    -2048 (0xFFFFF800 as a 32-bit word), the evaluator returns 2048. *)
Lemma pcrel_lo_not_sign_extended :
  evaluate sample.ev2 (StrImmediate "msg") = Ok 0x11800 /\
  position sample.ev2 = 0x10000 /\
  evaluate sample.ev2 (RelImmediate (StrImmediate "msg") PCREL_LO) = Ok 2048 /\
  sign_extend 12 (Z.land (0x11800 - 0x10000) 0xFFF) = -2048 /\
  evaluate sample.ev2 (RelImmediate (StrImmediate "msg") PCREL_LO)
    <> Ok (sign_extend 12 (Z.land (0x11800 - 0x10000) 0xFFF)) /\
  evaluate sample.ev2 (RelImmediate (StrImmediate "msg") PCREL_LO)
    <> Ok (to_target (sign_extend 12 (Z.land (0x11800 - 0x10000) 0xFFF))).
Proof.
  repeat split; try (vm_compute; reflexivity); vm_compute; discriminate.
Qed.

Lemma symbol_lookup_order_witness :
  evaluate sample.ev1 (StrImmediate "msg") = Ok 0x12000 /\
  evaluate sample.ev1 (StrImmediate "main") = Ok 0x10000 /\
  evaluate sample.ev1 (StrImmediate "nowhere")
    = Throw (PanicError (unknown_symbol "nowhere")).
Proof.
  split; [| split].
  - apply (proj1 (symbol_lookup_order sample.ev1 "msg") 0x12000).
    vm_compute. reflexivity.
  - apply (proj1 (proj2 (symbol_lookup_order sample.ev1 "main")) 0x10000);
      vm_compute; reflexivity.
  - apply (proj2 (proj2 (symbol_lookup_order sample.ev1 "nowhere")));
      vm_compute; reflexivity.
Defined.

Lemma evaluate_tree_fold_witness :
  evaluate sample.ev1 (TreeImmediate sample.tree1) = Ok (to_target (10 - 0x10008 + 4)).
Proof.
  apply (evaluate_tree_fold sample.ev1
           [ (IntImmediate 10, SUB); (StrImmediate "loop", ADD) ]
           [ 10; 0x10008 ] (IntImmediate 4) END 4).
  - repeat constructor.
  - repeat constructor; discriminate.
  - reflexivity.
Defined.

Lemma split_command_tokens_witness :
  exists fs,
    fields 1 (uncommented (sv "a0 , 12(sp) # c")) = Some fs /\
    split_command 2 (sv "a0 , 12(sp) # c") = Ok (strip <$> fs) /\
    length (strip <$> fs) = 2%nat /\
    Forall (fun token => starts_clean token /\ ends_clean token) (strip <$> fs).
Proof.
  apply (proj2 (proj2 (split_command_tokens 1 (sv "a0 , 12(sp) # c")))).
  - apply find_first_of_None. reflexivity.
  - vm_compute. lia.
Defined.

(** [split_command<1>] on an empty remainder: one empty token, no error. *)
Lemma split_command_one_of_nothing :
  split_command 1 (sv EmptyString) = Ok [ [] ] /\
  (forall message, split_command 1 (sv EmptyString) <> Throw (FailToParse message)).
Proof. split; [reflexivity | intros message; vm_compute; discriminate]. Qed.

Lemma empty_label_accepted_witness :
  is_valid_label (take 0 (sv ": # entry")) = true /\
  start_with_label (sv ": # entry") = Ok (Some []).
Proof.
  apply (empty_label_accepted (sv ": # entry") 0); reflexivity.
Defined.

(** An empty label followed by a token: the label check passes, the line is
    rejected all the same. *)
Lemma empty_label_then_token :
  find_first_of colon (sv ": x") = Some 0%nat /\
  before 0 (find_first_of double_quote (sv ": x")) = true /\
  take 0 (sv ": x") = [] /\
  start_with_label (sv ": x") = Throw (FailToParse "Unexpected token after label").
Proof. repeat split. Qed.

Lemma no_overlap_after_link_witness :
  ordered sample.linked1 /\
  interpreter.Interpreter_new (Ok sample.linked2) = Throw AssertionFailed.
Proof.
  split.
  - apply (proj1 (no_overlap_after_link (Ok sample.linked1)) sample.linked1).
    vm_compute. reflexivity.
  - apply (proj1 (proj2 (no_overlap_after_link (Ok sample.linked2))) sample.linked2).
    + reflexivity.
    + exists 0x10000. vm_compute. reflexivity.
    + intros (H & _). vm_compute in H. apply H. reflexivity.
Defined.

(** Words of the table are rendered by mnemonic and operands. *)
Example known_encodings :
  command.pretty_command sample.x_name 0x00A50533 = "add x10, x10, x10"%string /\
  command.pretty_command sample.x_name 0xFFF50513 = "addi x10, x10, -1"%string /\
  command.pretty_command sample.x_name 0x40555513 = "srai x10, x10, 5"%string /\
  command.pretty_command sample.x_name 0x00112623 = "sw x2, x1, 12"%string /\
  command.pretty_command sample.x_name 0xFE000EE3 = "beq x0, x0, -4"%string /\
  command.pretty_command sample.x_name 0x0000006F = "jal x0, 0"%string.
Proof. repeat split; vm_compute; reflexivity. Qed.

(** The endless jump under a timeout of 1000: the time limit is reported
    after exactly 1000 retirements. *)
Example spinning_hits_the_limit :
  backend.simulate_normal sample.spinning sample.retire tt sample.no_what O 1000 =
    Some {| backend.outcome := Throw (PanicError "Time Limit Exceeded");
            backend.retired_count := 1000;
            backend.final := 1001%nat |}.
Proof. vm_compute. reflexivity. Qed.

Lemma main_exit_code_witness :
  main_cpp.main (Ok tt) (fun _ => Ok tt) Ok Ok (fun _ : unit => Ok tt) = main_cpp.Return 0 /\
  main_cpp.main (Ok tt) (fun _ => Ok tt) Ok Ok (sample.simulate_guest sample.retire 1000)
    = main_cpp.Return 0.
Proof.
  split.
  - apply (proj1 (main_exit_code (Ok tt) (fun _ => Ok tt) Ok Ok (fun _ : unit => Ok tt))).
    reflexivity.
  - apply (proj1 (proj2 (main_exit_code (Ok tt) (fun _ => Ok tt) Ok Ok
                           (sample.simulate_guest sample.retire 1000)))
             "Time Limit Exceeded"%string).
    vm_compute. reflexivity.
Defined.

(** Three aborted runs: a link result without [main], a guest that exceeds
    its time limit, and a guest that traps.  Each ends in a panic, and each
    time [main] returns 0, not a non-zero code. *)
Lemma panic_exits_with_zero :
  let run new simulate :=
    main_cpp.main (Ok tt) new Ok Ok simulate in
  let built (_ : unit) : except unit := Ok tt in
  let unbuilt (_ : unit) : except unit :=
    let* _ := interpreter.Interpreter_new (Ok sample.linked3) in Ok tt in
  (unbuilt tt = Throw (PanicError "No main function found") /\
   run unbuilt (fun _ => Ok tt) = main_cpp.Return 0) /\
  (sample.simulate_guest sample.retire 1000 tt = Throw (PanicError "Time Limit Exceeded") /\
   run built (sample.simulate_guest sample.retire 1000) = main_cpp.Return 0) /\
  (sample.simulate_guest sample.misaligned 1000 tt = Throw (PanicError "trap") /\
   run built (sample.simulate_guest sample.misaligned 1000) = main_cpp.Return 0) /\
  ~ (forall code,
       run built (sample.simulate_guest sample.misaligned 1000) = main_cpp.Return code ->
       code <> 0).
Proof.
  cbv zeta. repeat split; try (vm_compute; reflexivity).
  intros H. apply (H 0); vm_compute; reflexivity.
Qed.

(** * Further properties of the embedded code *)

Example helper_samples :
  find_first_token (sv "  lw a0, 12(sp)") = (sv "lw", sv " a0, 12(sp)") /\
  find_first_token (sv "ret#done") = (sv "ret", sv "#done") /\
  split_offset_and_register (sv "12(sp)") = Ok (sv "12", sv "sp") /\
  split_offset_and_register (sv "%lo(msg)(a0)") = Ok (sv "%lo(msg)", sv "a0") /\
  split_offset_and_register (sv "12") = Throw (FailToParse (invalid_offset (sv "12"))) /\
  split_offset_and_register (sv "12)") = Throw (FailToParse (invalid_offset (sv "12"))) /\
  match_prefix (sv ".word") [sv ".byte"; sv ".w"] = true /\
  match_string (sv ".word") [sv ".byte"; sv ".w"] = false.
Proof. repeat split. Qed.

(** ** assembly/helper.h: labels and tokens *)

(** No label character separates tokens, starts a comment, ends a label or
    opens a string. *)
Lemma is_label_char_plain c :
  is_label_char c = true ->
  isspace c = false /\ is_split_char c = false /\ char_eqb c hash = false /\
  char_eqb c colon = false /\ char_eqb c double_quote = false.
Proof.
  destruct c as [b0 b1 b2 b3 b4 b5 b6 b7].
  destruct b0, b1, b2, b3, b4, b5, b6, b7; vm_compute; intros H;
    try discriminate H; repeat split.
Qed.

Lemma find_first_of_take_drop c str pos :
  find_first_of c str = Some pos ->
  str = take pos str ++ c :: drop (S pos) str.
Proof.
  intros H. apply find_first_of_Some in H as (H & _ & _).
  symmetry. apply take_drop_middle, H.
Qed.

(** X1. A label that [start_with_label] returns is the text before the
    first colon of the line, every character of it is a label character,
    and nothing but whitespace or a comment follows the colon. *)
Theorem start_with_label_sound str label :
  start_with_label str = Ok (Some label) ->
  Forall (fun c => is_label_char c = true) label /\
  (colon ∉ label) /\
  exists rest, str = label ++ colon :: rest /\ contain_no_token rest = true.
Proof.
  unfold start_with_label.
  destruct (find_first_of colon str) as [p2 |] eqn:Hcolon; [| discriminate].
  destruct (before p2 _); [| discriminate].
  destruct (is_valid_label (take p2 str)) eqn:Hvalid; cbn; [| discriminate].
  destruct (contain_no_token (drop (p2 + 1) str)) eqn:Hrest; cbn; [| discriminate].
  intros [= <-]. split; [| split].
  - unfold is_valid_label in Hvalid. rewrite forallb_forall in Hvalid.
    apply Forall_forall. intros c Hc. apply Hvalid, list_elem_of_In, Hc.
  - apply find_first_of_Some in Hcolon as (_ & H & _). exact H.
  - exists (drop (p2 + 1) str). split; [| exact Hrest].
    rewrite Nat.add_1_r. apply find_first_of_take_drop, Hcolon.
Qed.

(** X2. [start_with_label] answers "no label" without raising exactly when
    the line has no colon, or has a double quote before its first colon. *)
Theorem start_with_label_none str :
  start_with_label str = Ok None <->
  (forall p, find_first_of colon str = Some p ->
     exists q, find_first_of double_quote str = Some q /\ (q < p)%nat).
Proof.
  unfold start_with_label.
  destruct (find_first_of colon str) as [p2 |] eqn:Hcolon.
  - destruct (find_first_of double_quote str) as [q |] eqn:Hquote; cbn [before].
    + destruct (Nat.ltb_spec p2 q) as [Hlt | Hge].
      * split.
        -- destruct (is_valid_label _); cbn; [| discriminate].
           destruct (contain_no_token _); cbn; discriminate.
        -- intros H. destruct (H p2 eq_refl) as (q' & [= <-] & Hq). lia.
      * split; [| reflexivity]. intros _ p [= <-]. exists q. split; [reflexivity |].
        apply find_first_of_Some in Hcolon as (Hc & _ & _).
        apply find_first_of_Some in Hquote as (Hq & _ & _).
        assert (q <> p2) by (intros ->; rewrite Hc in Hq; discriminate). lia.
    + split.
      * destruct (is_valid_label _); cbn; [| discriminate].
        destruct (contain_no_token _); cbn; discriminate.
      * intros H. destruct (H p2 eq_refl) as (q & Hq & _). discriminate.
  - split; [intros _ p; discriminate | reflexivity].
Qed.

Lemma find_if_spec pred str :
  Forall (fun c => pred c = false) (take (find_if pred str) str) /\
  (drop (find_if pred str) str = [] \/
   exists c rest, drop (find_if pred str) str = c :: rest /\ pred c = true).
Proof.
  induction str as [| c str [IH1 IH2]]; cbn.
  - split; [constructor | left; reflexivity].
  - destruct (pred c) eqn:Hc; cbn.
    + split; [constructor | right; eauto].
    + split; [constructor; assumption | exact IH2].
Qed.

(** X3. [find_first_token] cuts the text, leading whitespace apart, in two
    without losing a character: the token holds no separator and no hash
    sign, and the rest is empty or begins with one. *)
Theorem find_first_token_spec str :
  let '(token, rest) := find_first_token str in
  token ++ rest = remove_front_whitespace str /\
  Forall (fun c => is_split_char c = false /\ c <> hash) token /\
  (rest = [] \/
   exists c rest', rest = c :: rest' /\ (is_split_char c = true \/ c = hash)).
Proof.
  unfold find_first_token.
  set (pred := fun c => is_split_char c || char_eqb c hash).
  destruct (find_if_spec pred (remove_front_whitespace str)) as [H1 H2].
  split; [apply take_drop |]. split.
  - eapply Forall_impl; [exact H1 |]. intros c Hc. unfold pred in Hc.
    apply orb_false_iff in Hc as [Hs Hh]. split; [exact Hs |].
    intros ->. rewrite char_eqb_refl in Hh. discriminate.
  - destruct H2 as [H2 | (c & rest' & H2 & Hc)]; [left; exact H2 | right].
    exists c, rest'. split; [exact H2 |]. unfold pred in Hc.
    apply orb_true_iff in Hc as [Hs | Hh]; [left; exact Hs | right].
    apply char_eqb_eq, Hh.
Qed.

Lemma remove_front_whitespace_app_spaces ws str :
  Forall (fun c => isspace c = true) ws ->
  remove_front_whitespace (ws ++ str) = remove_front_whitespace str.
Proof.
  induction 1 as [| c ws Hc _ IH]; cbn; [reflexivity |]. rewrite Hc. exact IH.
Qed.

Lemma remove_front_whitespace_id str :
  starts_clean str -> remove_front_whitespace str = str.
Proof.
  destruct str as [| c str]; [reflexivity |]. intros H. cbn.
  rewrite (H c eq_refl). reflexivity.
Qed.

Lemma find_if_app pred token rest :
  Forall (fun c => pred c = false) token ->
  (rest = [] \/ exists c rest', rest = c :: rest' /\ pred c = true) ->
  find_if pred (token ++ rest) = length token.
Proof.
  intros Htoken Hrest. induction Htoken as [| c token Hc _ IH]; cbn.
  - destruct Hrest as [-> | (c & rest' & -> & Hc)]; [reflexivity |].
    cbn. rewrite Hc. reflexivity.
  - rewrite Hc, IH. reflexivity.
Qed.

(** X4. A valid, non-empty label is one token: behind any leading
    whitespace and in front of a separator, a hash sign or the end of the
    text, [find_first_token] returns exactly the label and the rest. *)
Theorem find_first_token_label ws label rest :
  Forall (fun c => isspace c = true) ws ->
  is_valid_label label = true ->
  label <> [] ->
  (rest = [] \/ exists c rest', rest = c :: rest' /\ (is_split_char c = true \/ c = hash)) ->
  find_first_token (ws ++ label ++ rest) = (label, rest).
Proof.
  intros Hws Hvalid Hne Hrest. unfold find_first_token.
  rewrite remove_front_whitespace_app_spaces by exact Hws.
  unfold is_valid_label in Hvalid. rewrite forallb_forall in Hvalid.
  assert (Forall (fun c => is_label_char c = true) label) as Hlabel
    by (apply Forall_forall; intros c Hc; apply Hvalid, list_elem_of_In, Hc).
  rewrite remove_front_whitespace_id.
  - rewrite find_if_app.
    + rewrite take_app_length, drop_app_length. reflexivity.
    + eapply Forall_impl; [exact Hlabel |]. intros c Hc.
      apply is_label_char_plain in Hc as (_ & -> & -> & _). reflexivity.
    + destruct Hrest as [-> | (c & rest' & -> & Hc)]; [left; reflexivity | right].
      exists c, rest'. split; [reflexivity |].
      destruct Hc as [-> | ->]; [reflexivity |].
      rewrite char_eqb_refl. apply orb_true_r.
  - destruct label as [| c label]; [congruence |].
    intros d [= <-]. inversion Hlabel as [| ? ? Hc _]; subst.
    apply is_label_char_plain in Hc as (Hc & _). exact Hc.
Qed.

(** X5. The first token is empty exactly when the text contains no token in
    the sense of [contain_no_token], or begins, whitespace apart, with a
    comma. *)
Theorem empty_first_token str :
  fst (find_first_token str) = [] <->
  contain_no_token str = true \/ head (remove_front_whitespace str) = Some comma.
Proof.
  unfold find_first_token, contain_no_token.
  pose proof (remove_front_whitespace_clean str) as Hclean.
  destruct (remove_front_whitespace str) as [| c rest]; cbn.
  - split; [left; reflexivity | reflexivity].
  - unfold is_split_char. rewrite (Hclean c eq_refl). cbn.
    destruct (char_eqb c comma) eqn:Hcomma; cbn.
    + apply char_eqb_eq in Hcomma as ->. split; [right; reflexivity | reflexivity].
    + destruct (char_eqb c hash) eqn:Hhash; cbn.
      * split; [left; reflexivity | reflexivity].
      * split; [discriminate |]. intros [H | [= ->]]; [discriminate |].
        rewrite char_eqb_refl in Hcomma. discriminate.
Qed.

(** ** assembly/helper.h: string literals *)

Lemma find_first_asciz_loop_escape content : forall rest ret,
  find_first_asciz_loop (escape content ++ double_quote :: rest) ret
    = Ok (ret ++ content, rest).
Proof.
  induction content as [| c content IH]; intros rest ret.
  - cbn. rewrite app_nil_r. reflexivity.
  - unfold escape. cbn [flat_map]. fold (escape content).
    rewrite <- app_assoc. unfold escape_char.
    repeat match goal with
           | |- context [char_eqb c ?x] =>
               let E := fresh "E" in
               destruct (char_eqb c x) eqn:E;
               [apply char_eqb_eq in E; subst c;
                cbn [app find_first_asciz_loop]; rewrite char_eqb_refl;
                match goal with
                | |- context [escaped ?letter] =>
                    let v := eval vm_compute in (escaped letter) in
                    change (escaped letter) with v
                end;
                cbv iota; rewrite IH, <- app_assoc; reflexivity |]
           end.
    cbn [app find_first_asciz_loop].
    repeat match goal with
           | E : char_eqb c _ = false |- _ => rewrite E; clear E
           end.
    rewrite IH, <- app_assoc. reflexivity.
Qed.

(** X6. Reading back what was written: for every string, the literal made
    of a double quote, the escaped string and a double quote is read by
    [find_first_asciz] as that string, and the text behind the closing quote
    is handed back untouched; whitespace in front of the literal is skipped. *)
Theorem find_first_asciz_round_trip ws content rest :
  Forall (fun c => isspace c = true) ws ->
  find_first_asciz (ws ++ double_quote :: escape content ++ double_quote :: rest)
    = Ok (content, rest).
Proof.
  intros Hws. unfold find_first_asciz.
  rewrite remove_front_whitespace_app_spaces by exact Hws.
  cbn. apply find_first_asciz_loop_escape.
Qed.

Lemma find_first_asciz_loop_Ok n : forall str ret content rest,
  (length str <= n)%nat ->
  find_first_asciz_loop str ret = Ok (content, rest) ->
  exists body, str = body ++ double_quote :: rest.
Proof.
  induction n as [| n IH]; intros str ret content rest Hlen;
    (destruct str as [| c str]; [discriminate |]); cbn in Hlen; [lia |].
  cbn [find_first_asciz_loop].
  destruct (char_eqb c backslash) eqn:Hb.
  - destruct str as [| letter str]; [discriminate |].
    destruct (escaped letter); [| discriminate].
    intros H. apply IH in H as [body ->]; [| cbn in Hlen; lia].
    exists (c :: letter :: body). reflexivity.
  - destruct (char_eqb c double_quote) eqn:Hq.
    + apply char_eqb_eq in Hq as ->. intros [= _ <-]. exists []. reflexivity.
    + intros H. apply IH in H as [body ->]; [| lia].
      exists (c :: body). reflexivity.
Qed.

Lemma remove_front_whitespace_split str :
  exists ws, Forall (fun c => isspace c = true) ws /\
             str = ws ++ remove_front_whitespace str.
Proof.
  induction str as [| c str (ws & Hws & IH)]; cbn.
  - exists []. split; [constructor | reflexivity].
  - destruct (isspace c) eqn:Hc.
    + exists (c :: ws). split; [constructor; assumption |]. cbn. f_equal. exact IH.
    + exists []. split; [constructor | reflexivity].
Qed.

(** X7. [find_first_asciz] accepts only a text that is, after whitespace, a
    double quote, a body and a second double quote; the rest it returns is
    exactly what follows that closing quote. *)
Theorem find_first_asciz_shape str content rest :
  find_first_asciz str = Ok (content, rest) ->
  exists ws body,
    Forall (fun c => isspace c = true) ws /\
    str = ws ++ double_quote :: body ++ double_quote :: rest.
Proof.
  unfold find_first_asciz.
  destruct (remove_front_whitespace_split str) as (ws & Hws & Hstr).
  destruct (remove_front_whitespace str) as [| c tail]; [discriminate |].
  destruct (char_eqb c double_quote) eqn:Hq; [| discriminate].
  apply char_eqb_eq in Hq as ->.
  intros H. apply (find_first_asciz_loop_Ok (length tail)) in H as [body ->]; [| lia].
  exists ws, body. split; [exact Hws | exact Hstr].
Qed.

(** ** assembly/helper.h: memory operands *)

Lemma find_last_of_None c str : find_last_of c str = None <-> c ∉ str.
Proof.
  induction str as [| d str IH]; cbn.
  - split; [intros _; apply not_elem_of_nil | reflexivity].
  - rewrite not_elem_of_cons, <- IH.
    destruct (find_last_of c str); [split; [discriminate | intros [_ H]; discriminate] |].
    destruct (char_eqb d c) eqn:E.
    + apply char_eqb_eq in E as ->. split; [discriminate | intros [H _]; congruence].
    + split; [| reflexivity]. intros _. split; [| reflexivity].
      intros ->. rewrite char_eqb_refl in E. discriminate.
Qed.

Lemma find_last_of_Some c str : forall pos,
  find_last_of c str = Some pos ->
  str = take pos str ++ c :: drop (S pos) str /\ c ∉ drop (S pos) str.
Proof.
  induction str as [| d str IH]; intros pos; cbn; [discriminate |].
  destruct (find_last_of c str) as [p |] eqn:Hp.
  - intros [= <-]. destruct (IH p eq_refl) as [H1 H2]. cbn.
    split; [f_equal; exact H1 | exact H2].
  - destruct (char_eqb d c) eqn:E; [| discriminate].
    apply char_eqb_eq in E as ->. intros [= <-]. cbn.
    split; [reflexivity |]. rewrite drop_0. apply find_last_of_None, Hp.
Qed.

Lemma find_last_of_middle c front back :
  c ∉ back -> find_last_of c (front ++ c :: back) = Some (length front).
Proof.
  intros Hback. apply find_last_of_None in Hback.
  induction front as [| d front IH]; cbn.
  - rewrite Hback, char_eqb_refl. reflexivity.
  - rewrite IH. reflexivity.
Qed.

(** X8. [split_offset_and_register] succeeds exactly on a text of the form
    offset, opening parenthesis, register, closing parenthesis in which the
    register part holds no opening parenthesis, and then returns that offset
    and that register: the split is at the last opening parenthesis, so an
    offset may itself contain parentheses. *)
Theorem split_offset_and_register_spec str offset register :
  split_offset_and_register str = Ok (offset, register) <->
  str = offset ++ left_paren :: register ++ [right_paren] /\ left_paren ∉ register.
Proof.
  unfold split_offset_and_register. split.
  - destruct (last str) as [c |] eqn:Hlast; [| discriminate].
    apply last_Some in Hlast as [front ->].
    destruct (char_eqb c right_paren) eqn:Hc; [| discriminate].
    apply char_eqb_eq in Hc as ->.
    rewrite length_app, Nat.add_sub, take_app_length.
    destruct (find_last_of left_paren front) as [pos |] eqn:Hpos; [| discriminate].
    intros [= <- <-]. apply find_last_of_Some in Hpos as [H1 H2].
    rewrite Nat.add_1_r. split; [| exact H2].
    rewrite H1 at 1. rewrite <- app_assoc. reflexivity.
  - intros [-> Hreg].
    replace (offset ++ left_paren :: register ++ [right_paren])
      with ((offset ++ left_paren :: register) ++ [right_paren])
      by (rewrite <- app_assoc; reflexivity).
    rewrite last_snoc, char_eqb_refl.
    rewrite length_app, Nat.add_sub, take_app_length.
    rewrite (find_last_of_middle _ _ _ Hreg).
    rewrite take_app_length, Nat.add_1_r.
    change (left_paren :: register) with ([left_paren] ++ register).
    rewrite app_assoc, drop_app_length'; [reflexivity |].
    rewrite length_app. cbn. lia.
Qed.

(** ** assembly/helper.h: stripping and splitting *)

Lemma remove_back_whitespace_id str :
  ends_clean str -> remove_back_whitespace str = str.
Proof.
  intros H. unfold remove_back_whitespace.
  rewrite remove_front_whitespace_id; [apply reverse_involutive |].
  intros c Hc. apply H. rewrite <- Hc. symmetry. apply head_reverse.
Qed.

(** X9. Stripping is idempotent: once the whitespace around a text has
    been removed, removing it again, at either end or at both, changes
    nothing. *)
Theorem strip_idempotent str :
  remove_front_whitespace (strip str) = strip str /\
  remove_back_whitespace (strip str) = strip str /\
  strip (strip str) = strip str.
Proof.
  destruct (strip_clean str) as [Hs He].
  assert (remove_front_whitespace (strip str) = strip str) as Hf
    by (apply remove_front_whitespace_id, Hs).
  assert (remove_back_whitespace (strip str) = strip str) as Hb
    by (apply remove_back_whitespace_id, He).
  split; [exact Hf |]. split; [exact Hb |].
  unfold strip at 1. rewrite Hf. exact Hb.
Qed.

Lemma elem_of_strip c str : c ∈ strip str -> c ∈ str.
Proof.
  unfold strip. intros H.
  destruct (remove_back_whitespace_prefix (remove_front_whitespace str)) as [k Hk].
  destruct (remove_front_whitespace_suffix str) as [k' Hk'].
  rewrite Hk', Hk. apply elem_of_app. right. apply elem_of_app. left. exact H.
Qed.

Lemma elem_of_fields k : forall str fs field c,
  fields k str = Some fs -> field ∈ fs -> c ∈ field -> c ∈ str.
Proof.
  induction k as [| k IH]; intros str fs field c; cbn.
  - intros [= <-] Hf Hc. apply list_elem_of_singleton in Hf as ->. exact Hc.
  - destruct (find_first_of comma str) as [pos |] eqn:Hpos; [| discriminate].
    destruct (fields k (drop (S pos) str)) as [fs' |] eqn:Hfs; cbn; [| discriminate].
    intros [= <-] Hf Hc.
    apply elem_of_cons in Hf as [-> | Hf].
    + rewrite <- (take_drop pos str). apply elem_of_app. left. exact Hc.
    + rewrite <- (take_drop (S pos) str). apply elem_of_app. right.
      eapply IH; eauto.
Qed.

Lemma fields_before_last k : forall str fs i field,
  fields k str = Some fs -> (i < k)%nat -> fs !! i = Some field -> comma ∉ field.
Proof.
  induction k as [| k IH]; intros str fs i field; cbn; [intros _ H; lia |].
  destruct (find_first_of comma str) as [pos |] eqn:Hpos; [| discriminate].
  destruct (fields k (drop (S pos) str)) as [fs' |] eqn:Hfs; cbn; [| discriminate].
  intros [= <-] Hi Hfield. destruct i as [| i]; cbn in Hfield.
  - injection Hfield as <-. apply find_first_of_Some in Hpos as (_ & H & _). exact H.
  - eapply IH; [exact Hfs | | exact Hfield]. lia.
Qed.

Lemma uncommented_plain str c : c ∈ uncommented str -> c ∈ str /\ c <> hash.
Proof.
  unfold uncommented.
  destruct (find_first_of hash str) as [pos |] eqn:Hpos.
  - intros Hc. split.
    + rewrite <- (take_drop pos str). apply elem_of_app. left. exact Hc.
    + apply find_first_of_Some in Hpos as (_ & H & _). intros ->. contradiction.
  - intros Hc. split; [exact Hc |].
    apply find_first_of_None in Hpos. intros ->. contradiction.
Qed.

(** X10. No token that [split_command] returns holds a hash sign or a
    double quote, none begins or ends with whitespace, and every token but
    the last is free of commas. *)
Theorem split_command_tokens_plain _N str tokens :
  split_command _N str = Ok tokens ->
  length tokens = _N /\
  (forall token, token ∈ tokens ->
     (hash ∉ token) /\ (double_quote ∉ token) /\
     starts_clean token /\ ends_clean token) /\
  (forall i token, tokens !! i = Some token -> (S i < _N)%nat -> comma ∉ token).
Proof.
  destruct _N as [| n].
  - unfold split_command. destruct (contain_no_token str); cbn; [| discriminate].
    intros [= <-]. split; [reflexivity |].
    split; [intros token H; apply elem_of_nil in H; contradiction |].
    intros i token H. discriminate.
  - rewrite split_command_fields. case_bool_decide as Hq; [discriminate |].
    destruct (fields n (uncommented str)) as [fs |] eqn:Hfs; [| discriminate].
    intros [= <-]. split; [| split].
    + rewrite length_fmap. eapply fields_length, Hfs.
    + intros token Htoken. apply list_elem_of_fmap in Htoken as (field & -> & Hfield).
      assert (forall c, c ∈ strip field -> c ∈ str /\ c <> hash) as Hin.
      { intros c Hc. apply uncommented_plain.
        eapply elem_of_fields; [exact Hfs | exact Hfield |]. apply elem_of_strip, Hc. }
      split; [intros H; apply Hin in H as [_ H]; congruence |].
      split; [intros H; apply Hin in H as [H _]; contradiction |].
      apply strip_clean.
    + intros i token Htoken Hi. rewrite list_lookup_fmap in Htoken.
      destruct (fs !! i) as [field |] eqn:Hfield; [| discriminate].
      injection Htoken as <-. intros Hc. apply elem_of_strip in Hc.
      eapply fields_before_last; [exact Hfs | | exact Hfield | exact Hc]. lia.
Qed.

(** ** assembly/helper.h: matching *)

Lemma view_eqb_eq str s : view_eqb str s = true <-> str = s.
Proof.
  revert s. induction str as [| c str IH]; intros [| d s]; cbn [view_eqb].
  - split; reflexivity.
  - split; discriminate.
  - split; discriminate.
  - rewrite andb_true_iff, char_eqb_eq, IH.
    split; [intros [-> ->]; reflexivity | intros [= -> ->]; split; reflexivity].
Qed.

Lemma starts_with_prefix str s : starts_with str s = true <-> s `prefix_of` str.
Proof.
  revert str. induction s as [| d s IH]; intros str; cbn [starts_with].
  - destruct str; (split; [intros _; apply prefix_nil | reflexivity]).
  - destruct str as [| c str]; cbn [starts_with].
    + split; [discriminate | intros H; apply prefix_nil_inv in H; discriminate].
    + rewrite andb_true_iff, char_eqb_eq, IH. split.
      * intros [-> H]. apply prefix_cons, H.
      * intros H. split; [symmetry; eapply prefix_cons_inv_1, H
                         | eapply prefix_cons_inv_2, H].
Qed.

(** X11. [match_string] holds exactly when the text is one of the listed
    words and [match_prefix] exactly when one of them is a prefix of the
    text; so whatever [match_string] accepts, [match_prefix] accepts too. *)
Theorem match_string_prefix str list :
  (match_string str list = true <-> str ∈ list) /\
  (match_prefix str list = true <-> exists s, s ∈ list /\ s `prefix_of` str) /\
  (match_string str list = true -> match_prefix str list = true).
Proof.
  assert (match_prefix str list = true <-> exists s, s ∈ list /\ s `prefix_of` str)
    as Hprefix.
  { induction list as [| s list IH]; cbn.
    - split; [discriminate | intros (s & H & _); apply elem_of_nil in H; contradiction].
    - destruct (starts_with str s) eqn:Hs.
      + apply starts_with_prefix in Hs. split; [| reflexivity].
        intros _. exists s. split; [left | exact Hs].
      + rewrite IH. split.
        * intros (s' & H & Hp). exists s'. split; [right; exact H | exact Hp].
        * intros (s' & H & Hp). apply elem_of_cons in H as [-> | H].
          -- apply starts_with_prefix in Hp. congruence.
          -- exists s'. split; assumption.
  }
  assert (match_string str list = true <-> str ∈ list) as Hstring.
  { clear Hprefix. induction list as [| s list IH]; cbn.
    - split; [discriminate | intros H; apply elem_of_nil in H; contradiction].
    - rewrite elem_of_cons, <- IH, <- view_eqb_eq.
      destruct (view_eqb str s);
        [split; auto | split; [auto | intros [H | H]; [discriminate | exact H]]].
  }
  split; [exact Hstring |]. split; [exact Hprefix |].
  intros H. apply Hprefix. exists str. split; [apply Hstring, H | reflexivity].
Qed.

(** ** linker/evaluate.h *)

(** Induction on immediates, with the elements of a [Tree] as
    sub-immediates. *)
Lemma ImmediateBase_nested_ind (P : ImmediateBase -> Prop) :
  (forall data, P (IntImmediate data)) ->
  (forall data, P (StrImmediate data)) ->
  (forall imm operand, P imm -> P (RelImmediate imm operand)) ->
  (forall data, Forall (fun item => P (fst item)) data -> P (TreeImmediate data)) ->
  forall imm, P imm.
Proof.
  intros HInt HStr HRel HTree.
  fix IH 1. intros [data | data | imm operand | data].
  - apply HInt.
  - apply HStr.
  - apply HRel, IH.
  - apply HTree. induction data as [| [sub op] data IHdata]; constructor.
    + apply IH.
    + exact IHdata.
Qed.

Lemma evaluate_tree_loop_failure ev eval data :
  Forall (fun item => forall e, eval (fst item) = Throw e -> link_failure ev e) data ->
  forall last_op acc e,
    evaluate_tree_loop eval data last_op acc = Throw e -> link_failure ev e.
Proof.
  induction 1 as [| [sub op] data Hsub _ IH]; intros last_op acc e; cbn.
  - unfold runtime_assert. destruct (bool_decide (last_op = END)); cbn; [discriminate |].
    intros [= <-]. left. reflexivity.
  - destruct (eval sub) as [v | e'] eqn:Hv; cbn.
    + destruct last_op; [apply IH | apply IH |]. intros [= <-]. left. reflexivity.
    + intros [= <-]. apply Hsub. exact Hv.
Qed.

(** X12. Evaluating an immediate fails in two ways only: on an assertion
    of [evaluate_tree], or with the unknown-symbol panic for a name that is
    in neither the local nor the global table. *)
Theorem evaluate_failure ev imm e :
  evaluate ev imm = Throw e -> link_failure ev e.
Proof.
  revert e. induction imm as [data | data | imm operand IH | data IH]
    using ImmediateBase_nested_ind; intros e.
  - discriminate.
  - cbn. unfold get_symbol_position.
    destruct (local_table ev !! data) eqn:Hl; cbn; [discriminate |].
    destruct (global_table ev !! data) eqn:Hg; cbn; [discriminate |].
    intros [= <-]. right. exists data. auto.
  - cbn. destruct (evaluate ev imm) as [v | e'] eqn:Hv; cbn.
    + destruct operand; discriminate.
    + intros [= <-]. apply IH. reflexivity.
  - cbn [evaluate]. apply evaluate_tree_loop_failure. exact IH.
Qed.

Lemma evaluate_tree_loop_ext eval eval' data :
  Forall (fun item => eval (fst item) = eval' (fst item)) data ->
  forall last_op acc,
    evaluate_tree_loop eval data last_op acc = evaluate_tree_loop eval' data last_op acc.
Proof.
  induction 1 as [| [sub op] data Hsub _ IH]; intros last_op acc; cbn; [reflexivity |].
  cbn in Hsub. rewrite Hsub. destruct (eval' sub); cbn; [| reflexivity].
  destruct last_op; [apply IH | apply IH | reflexivity].
Qed.

(** X13. The position of the instruction matters to PC-relative
    relocations only: an immediate without PCREL_HI and PCREL_LO evaluates
    to the same result at every position. *)
Theorem evaluate_position_independent ev imm p :
  pcrel_free imm = true ->
  evaluate (set_position ev p) imm = evaluate ev imm.
Proof.
  induction imm as [data | data | imm operand IH | data IH]
    using ImmediateBase_nested_ind; intros Hfree.
  - reflexivity.
  - reflexivity.
  - cbn in Hfree. cbn [evaluate].
    destruct operand; try discriminate; rewrite IH by exact Hfree; reflexivity.
  - cbn [evaluate]. apply evaluate_tree_loop_ext.
    cbn in Hfree. rewrite forallb_forall in Hfree.
    apply Forall_forall. intros item Hitem.
    rewrite Forall_forall in IH. apply IH; [exact Hitem |].
    apply Hfree, list_elem_of_In, Hitem.
Qed.

Lemma evaluate_tree_loop_prefix eval init values :
  Forall2 (fun item v => eval (fst item) = Ok v) init values ->
  Forall (fun item => snd item <> END) init ->
  forall rest last_op acc, last_op <> END ->
  exists last_op' acc',
    last_op' <> END /\
    evaluate_tree_loop eval (init ++ rest) last_op acc =
      evaluate_tree_loop eval rest last_op' acc'.
Proof.
  induction 1 as [| [sub op] v init values Hv _ IH]; intros Hops rest last_op acc Hlast.
  - exists last_op, acc. split; [exact Hlast | reflexivity].
  - inversion Hops as [| ? ? Hop Hops']; subst. cbn in Hv, Hop.
    cbn [app evaluate_tree_loop]. rewrite Hv. cbn [bind].
    destruct last_op; [| | congruence]; apply IH; assumption.
Qed.

(** X14. A [Tree] is evaluated from left to right and stops at the first
    element that fails: when the elements before it have a value and carry
    ADD or SUB, the failure of an element is the failure of the whole tree,
    whatever comes after it. *)
Theorem evaluate_tree_first_failure ev init values sub op rest e :
  Forall2 (fun item v => evaluate ev (fst item) = Ok v) init values ->
  Forall (fun item => snd item <> END) init ->
  evaluate ev sub = Throw e ->
  evaluate ev (TreeImmediate (init ++ (sub, op) :: rest)) = Throw e.
Proof.
  intros Hvalues Hops He. cbn [evaluate].
  destruct (evaluate_tree_loop_prefix _ _ _ Hvalues Hops ((sub, op) :: rest) ADD 0)
    as (last_op' & acc' & _ & ->); [discriminate |].
  cbn. rewrite He. reflexivity.
Qed.

(** X15. END ends the list: when an element that carries END is followed
    by another element, the evaluation fails, on the assertion if that next
    element has a value and with the failure of that element otherwise. *)
Theorem evaluate_tree_end_in_the_middle ev init values sub v next op rest :
  Forall2 (fun item v => evaluate ev (fst item) = Ok v) init values ->
  Forall (fun item => snd item <> END) init ->
  evaluate ev sub = Ok v ->
  evaluate ev (TreeImmediate (init ++ (sub, END) :: (next, op) :: rest)) =
    match evaluate ev next with
    | Ok _ => Throw AssertionFailed
    | Throw e => Throw e
    end.
Proof.
  intros Hvalues Hops Hv. cbn [evaluate].
  destruct (evaluate_tree_loop_prefix _ _ _ Hvalues Hops
              ((sub, END) :: (next, op) :: rest) ADD 0)
    as (last_op' & acc' & Hlast & ->); [discriminate |].
  cbn. rewrite Hv. cbn.
  destruct last_op'; [| | congruence];
    destruct (evaluate ev next); reflexivity.
Qed.

(** ** src/interpreter/interpreter.cpp *)


(** X17. The failures of the construction come in a fixed order: a failure
    of the linker is passed on as it is; a link result without [main] gives
    the panic "No main function found", whether or not its sections
    overlap; the overlap assertion is reached only with a [main]. *)
Theorem Interpreter_new_fails get_result :
  (forall e, get_result = Throw e -> interpreter.Interpreter_new get_result = Throw e) /\
  (forall result,
     get_result = Ok result ->
     interpreter.position_table result !! "main"%string = None ->
     interpreter.Interpreter_new get_result = Throw (PanicError "No main function found")) /\
  (forall result,
     interpreter.Interpreter_new get_result = Throw AssertionFailed ->
     get_result = Ok result ->
     is_Some (interpreter.position_table result !! "main"%string) /\ ~ ordered result).
Proof.
  unfold interpreter.Interpreter_new. split; [| split].
  - intros e ->. reflexivity.
  - intros result -> Hmain. cbn [bind].
    rewrite bool_decide_eq_true_2 by exact Hmain. reflexivity.
  - intros result H ->. cbn [bind] in H.
    case_bool_decide as Hmain; cbn [panic_if bind] in H; [discriminate |].
    rewrite check_no_overlap_spec in H.
    case_bool_decide as Hordered; cbn [bind] in H; [discriminate |].
    split; [| exact Hordered].
    destruct (interpreter.position_table result !! "main"%string); [eauto | contradiction].
Qed.

Lemma section_end_fits section :
  fits section ->
  section_end section = interpreter.start section + interpreter.storage_size section.
Proof.
  intros [H0 Hmax]. unfold section_end, interpreter.get_start_end, to_size.
  cbn [snd]. apply Z.mod_small.
  unfold SIZE_MAX in Hmax. unfold interpreter.storage_size in *. lia.
Qed.

(** X18. What the three inequalities buy: in a link result that passed the
    check, and whose section ends do not wrap around, no address lies inside
    two different sections, adjacent in the canonical order or not. *)
Theorem sections_disjoint result i j first second address :
  ordered result ->
  Forall fits (sections result) ->
  (i < j)%nat ->
  sections result !! i = Some first ->
  sections result !! j = Some second ->
  inside first address ->
  ~ inside second address.
Proof.
  intros (H1 & H2 & H3) Hfits Hij Hfirst Hsecond.
  unfold sections in *.
  inversion Hfits as [| ? ? Ft Hfits1]; subst.
  inversion Hfits1 as [| ? ? Fd Hfits2]; subst.
  inversion Hfits2 as [| ? ? Fr Hfits3]; subst.
  inversion Hfits3 as [| ? ? Fb _]; subst.
  rewrite (section_end_fits _ Ft) in H1.
  rewrite (section_end_fits _ Fd) in H2.
  rewrite (section_end_fits _ Fr) in H3.
  pose proof (Nat2Z.is_nonneg (length (interpreter.storage (interpreter.data result)))).
  pose proof (Nat2Z.is_nonneg (length (interpreter.storage (interpreter.rodata result)))).
  unfold inside, interpreter.storage_size in *.
  destruct i as [| [| [| [| i]]]]; cbn in Hfirst; try discriminate;
    injection Hfirst as <-;
    (destruct j as [| [| [| [| j]]]]; cbn in Hsecond; try discriminate; try lia;
     injection Hsecond as <-; lia).
Qed.

Lemma sections_disjoint_witness :
  ~ inside (interpreter.data sample.linked1) 0x1000F.
Proof.
  apply (sections_disjoint sample.linked1 0 1
           (interpreter.text sample.linked1) (interpreter.data sample.linked1) 0x1000F).
  - repeat split; vm_compute; discriminate.
  - repeat constructor; vm_compute; discriminate.
  - lia.
  - reflexivity.
  - reflexivity.
  - split; vm_compute; [discriminate | reflexivity].
Defined.

(** ** src/interpreter/backend.cpp *)

Section Budget.
Context {Machine Hint : Type}.
Variable advance : Machine -> bool * Machine.
Variable execute : Machine -> Hint -> @backend.executed Machine Hint.
Variable hint0 : Hint.
Variable what : Error -> Machine -> string.

Local Abbreviation rounds := (spec.rounds advance execute).
Local Abbreviation simulate_normal := (backend.simulate_normal advance execute hint0 what).

(** A round that is followed by further rounds was a full one. *)
Lemma rounds_continue k j m hint mk hk mj hj :
  rounds k m hint = Some (mk, hk) ->
  rounds j m hint = Some (mj, hj) ->
  (k < j)%nat ->
  exists mk' m' h',
    advance mk = (true, mk') /\ execute mk' hk = backend.Retired m' h'.
Proof.
  intros Hk Hj Hlt.
  replace j with (k + S (j - k - 1))%nat in Hj by lia.
  rewrite rounds_add, Hk in Hj. cbn [spec.rounds] in Hj.
  destruct (advance mk) as [[] mk'] eqn:Ha; [| discriminate].
  destruct (execute mk' hk) as [m' h' | e m'] eqn:He; [| discriminate].
  exists mk', m', h'. split; [reflexivity | exact He].
Qed.

Lemma behaviour_clean m T s :
  behaviour advance execute hint0 what m T s ->
  backend.outcome s = Ok tt ->
  exists k m1 h1,
    Z.of_nat k <= T /\ rounds k m hint0 = Some (m1, h1) /\
    advance m1 = (false, backend.final s) /\ backend.retired_count s = k.
Proof.
  intros [k m1 h1 m2 Hk Hr Ha | m1 h1 m2 Hr Ha | k m1 h1 m2 e m3 Hk Hr Ha He]; cbn.
  - intros _. exists k, m1, h1. auto.
  - discriminate.
  - destruct e; cbn; discriminate.
Qed.

(** X23. A run that ends cleanly within its time limit does not depend on
    the limit: under every larger limit (below the largest [std::size_t])
    the simulation ends the same way, with the same number of retired
    instructions and in the same final state. *)
Theorem clean_run_any_budget m T T' s :
  0 <= T <= T' ->
  T' < SIZE_MAX ->
  simulate_normal m T = Some s ->
  backend.outcome s = Ok tt ->
  simulate_normal m T' = Some s.
Proof.
  intros HT HT' Hs Hclean.
  destruct (simulate_normal_behaviour advance execute hint0 what m T)
    as (s0 & Hs0 & _ & Hb); [lia |].
  rewrite Hs in Hs0. injection Hs0 as <-.
  destruct (behaviour_clean _ _ _ Hb Hclean) as (k & m1 & h1 & Hk & Hr & Ha & Hcount).
  destruct (simulate_normal_behaviour advance execute hint0 what m T')
    as (s' & -> & _ & Hb'); [lia |].
  f_equal. destruct s as [o r f]. cbn in *. subst o r.
  destruct Hb' as [k' m1' h1' m2' Hk' Hr' Ha' | m1' h1' m2' Hr' Ha'
                  | k' m1' h1' m2' e m3 Hk' Hr' Ha' He'].
  - destruct (Nat.lt_trichotomy k k') as [Hlt | [<- | Hgt]].
    + destruct (rounds_continue _ _ _ _ _ _ _ _ Hr Hr' Hlt) as (? & ? & ? & Hc & _).
      rewrite Ha in Hc. discriminate.
    + rewrite Hr in Hr'. injection Hr' as <- <-.
      rewrite Ha in Ha'. injection Ha' as <-. reflexivity.
    + destruct (rounds_continue _ _ _ _ _ _ _ _ Hr' Hr Hgt) as (? & ? & ? & Hc & _).
      rewrite Ha' in Hc. discriminate.
  - destruct (rounds_then_continue advance execute _ k _ _ _ _ _ _ _ Hr' Ha'
                ltac:(lia) Hr) as (mk' & Hc & _).
    rewrite Ha in Hc. discriminate.
  - exfalso. destruct (Nat.lt_trichotomy k k') as [Hlt | [<- | Hgt]].
    + destruct (rounds_continue _ _ _ _ _ _ _ _ Hr Hr' Hlt) as (? & ? & ? & Hc & _).
      rewrite Ha in Hc. discriminate.
    + rewrite Hr in Hr'. injection Hr' as <- <-.
      rewrite Ha in Ha'. discriminate.
    + destruct (rounds_continue _ _ _ _ _ _ _ _ Hr' Hr Hgt) as (? & ? & ? & Hc & Hx).
      rewrite Ha' in Hc. injection Hc as <-. rewrite He' in Hx. discriminate.
Qed.

End Budget.

(** ** src/main.cpp *)

(** X25. The stages of [main] run in order and the first failure decides:
    when the interpreter cannot be built, nothing of assembling, linking and
    simulating matters to how the process ends; when assembling fails,
    nothing of linking and simulating does; when linking fails, nothing of
    simulating does. *)
Theorem main_first_failure {Config Interpreter : Type}
    (Config_parse : except Config)
    (Interpreter_new : Config -> except Interpreter)
    (assemble link : Interpreter -> except Interpreter)
    (simulate : Interpreter -> except unit) config :
  Config_parse = Ok config ->
  (forall e assemble' link' simulate',
     Interpreter_new config = Throw e ->
     main_cpp.main Config_parse Interpreter_new assemble link simulate =
     main_cpp.main Config_parse Interpreter_new assemble' link' simulate') /\
  (forall i e link' simulate',
     Interpreter_new config = Ok i -> assemble i = Throw e ->
     main_cpp.main Config_parse Interpreter_new assemble link simulate =
     main_cpp.main Config_parse Interpreter_new assemble link' simulate') /\
  (forall i i' e simulate',
     Interpreter_new config = Ok i -> assemble i = Ok i' -> link i' = Throw e ->
     main_cpp.main Config_parse Interpreter_new assemble link simulate =
     main_cpp.main Config_parse Interpreter_new assemble link simulate').
Proof.
  intros Hconfig. unfold main_cpp.main, main_cpp.try_block. rewrite Hconfig. cbn [bind].
  split; [| split].
  - intros e assemble' link' simulate' ->. reflexivity.
  - intros i e link' simulate' -> Ha. cbn [bind]. rewrite Ha. reflexivity.
  - intros i i' e simulate' -> Ha Hl. cbn [bind]. rewrite Ha. cbn [bind].
    rewrite Hl. reflexivity.
Qed.

(** X20. For every time limit below the largest [std::size_t] the
    simulation returns, has retired at most that many instructions, and
    went one of three ways: a clean end after [advance] returned false,
    the time limit after [T] retirements and [T + 1] calls of [advance]
    that returned true, or the failure of an instruction handed to the
    handlers of the [try]. *)
Theorem simulate_normal_within_budget {Machine Hint : Type}
    (advance : Machine -> bool * Machine)
    (execute : Machine -> Hint -> @backend.executed Machine Hint)
    (hint0 : Hint) (what : Error -> Machine -> string) m T :
  0 <= T < SIZE_MAX ->
  exists s,
    backend.simulate_normal advance execute hint0 what m T = Some s /\
    Z.of_nat (backend.retired_count s) <= T /\
    behaviour advance execute hint0 what m T s.
Proof. apply simulate_normal_behaviour. Qed.

(** X26. The PCREL pair of the evaluator rebuilds the displacement v - p
    modulo 2^32 when the low half is read as an unsigned 12-bit number;
    read as a signed one, as an instruction reads its immediate, it rebuilds
    v - p when bit 11 of the displacement is clear and v - p - 0x1000 when
    it is set. *)
Theorem pcrel_pair_rebuilds ev inner v h l :
  evaluate ev inner = Ok v ->
  evaluate ev (RelImmediate inner PCREL_HI) = Ok h ->
  evaluate ev (RelImmediate inner PCREL_LO) = Ok l ->
  to_target (Z.shiftl h 12 + l) = to_target (v - position ev) /\
  to_target (Z.shiftl h 12 + sign_extend 12 l) =
    to_target (v - position ev
               - (if Z.testbit (v - position ev) 11 then 0x1000 else 0)).
Proof.
  intros Hv Hh Hl. split.
  - eapply pcrel_pair_unsigned; eassumption.
  - eapply pcrel_pair_signed; eassumption.
Qed.

(** ** Further examples on concrete inputs *)

Lemma start_with_label_sound_witness :
  Forall (fun c => is_label_char c = true) (sv ".L1") /\
  (colon ∉ sv ".L1") /\
  exists rest, sv ".L1: # entry" = sv ".L1" ++ colon :: rest /\ contain_no_token rest = true.
Proof.
  apply (start_with_label_sound (sv ".L1: # entry") (sv ".L1")). reflexivity.
Defined.

Lemma find_first_token_label_witness :
  find_first_token (sv "  " ++ sv "main" ++ sv ", 4") = (sv "main", sv ", 4").
Proof.
  apply (find_first_token_label (sv "  ") (sv "main") (sv ", 4")).
  - repeat constructor.
  - reflexivity.
  - discriminate.
  - right. exists comma, (sv " 4"). split; [reflexivity | left; reflexivity].
Defined.

Lemma find_first_asciz_round_trip_witness :
  find_first_asciz
    (sv "  " ++ double_quote :: escape sample.a_newline ++ double_quote :: sv " # x")
    = Ok (sample.a_newline, sv " # x").
Proof.
  apply (find_first_asciz_round_trip (sv "  ") sample.a_newline (sv " # x")).
  repeat constructor.
Defined.

Lemma find_first_asciz_shape_witness :
  exists ws body,
    Forall (fun c => isspace c = true) ws /\
    sv " " ++ double_quote :: sv "a\n" ++ double_quote :: sv ", 1"
      = ws ++ double_quote :: body ++ double_quote :: sv ", 1".
Proof.
  apply (find_first_asciz_shape
           (sv " " ++ double_quote :: sv "a\n" ++ double_quote :: sv ", 1")
           sample.a_newline (sv ", 1")).
  reflexivity.
Defined.

Lemma split_command_tokens_plain_witness :
  length [sv "a0"; sv "12(sp)"] = 2%nat /\
  (forall token, token ∈ [sv "a0"; sv "12(sp)"] ->
     (hash ∉ token) /\ (double_quote ∉ token) /\
     starts_clean token /\ ends_clean token) /\
  (forall i token, [sv "a0"; sv "12(sp)"] !! i = Some token -> (S i < 2)%nat ->
     comma ∉ token).
Proof.
  apply (split_command_tokens_plain 2 (sv "a0 , 12(sp) # c") [sv "a0"; sv "12(sp)"]).
  reflexivity.
Defined.

Lemma evaluate_failure_witness :
  link_failure sample.ev1 (PanicError (unknown_symbol "nowhere")).
Proof.
  apply (evaluate_failure sample.ev1
           (RelImmediate (StrImmediate "nowhere") PCREL_HI)).
  vm_compute. reflexivity.
Defined.

Lemma evaluate_position_independent_witness :
  evaluate (set_position sample.ev1 0x20000) (TreeImmediate sample.tree1)
    = evaluate sample.ev1 (TreeImmediate sample.tree1).
Proof.
  apply (evaluate_position_independent sample.ev1 (TreeImmediate sample.tree1) 0x20000).
  reflexivity.
Defined.

Lemma evaluate_tree_first_failure_witness :
  evaluate sample.ev1
    (TreeImmediate ([ (IntImmediate 1, ADD) ]
                    ++ (StrImmediate "nowhere", SUB) :: [ (IntImmediate 2, END) ]))
    = Throw (PanicError (unknown_symbol "nowhere")).
Proof.
  apply (evaluate_tree_first_failure sample.ev1 [ (IntImmediate 1, ADD) ] [ 1 ]).
  - repeat constructor.
  - repeat constructor; discriminate.
  - vm_compute. reflexivity.
Defined.

Lemma evaluate_tree_end_in_the_middle_witness :
  evaluate sample.ev1
    (TreeImmediate ([ (IntImmediate 1, ADD) ]
                    ++ (IntImmediate 2, END) :: (IntImmediate 3, END) :: []))
    = Throw AssertionFailed.
Proof.
  apply (evaluate_tree_end_in_the_middle sample.ev1 [ (IntImmediate 1, ADD) ] [ 1 ]
           (IntImmediate 2) 2 (IntImmediate 3) END []).
  - repeat constructor.
  - repeat constructor; discriminate.
  - reflexivity.
Defined.

Lemma simulate_normal_returns_witness :
  is_Some (backend.simulate_normal sample.spinning sample.retire tt sample.no_what O 1000).
Proof.
  apply (simulate_normal_returns sample.spinning sample.retire tt sample.no_what O 1000).
  split; vm_compute; discriminate.
Defined.

Lemma simulate_normal_within_budget_witness :
  exists s,
    backend.simulate_normal sample.counting sample.retire tt sample.no_what O 10 = Some s /\
    Z.of_nat (backend.retired_count s) <= 10 /\
    behaviour sample.counting sample.retire tt sample.no_what O 10 s.
Proof.
  apply (simulate_normal_within_budget sample.counting sample.retire tt sample.no_what O 10).
  split; vm_compute; [discriminate | reflexivity].
Defined.

Lemma time_limit_iff_witness :
  (exists m' retired, backend.Ended SIZE_MAX 4%nat 3 = backend.Ended SIZE_MAX m' retired) <->
  (exists m1 h1 m2,
      spec.rounds sample.spinning sample.retire (Z.to_nat 3) O tt = Some (m1, h1) /\
      sample.spinning m1 = (true, m2)).
Proof.
  apply (time_limit_iff sample.spinning sample.retire O tt 3 (backend.Ended SIZE_MAX 4%nat 3)).
  - split; vm_compute; [discriminate | reflexivity].
  - reflexivity.
Defined.

Lemma trap_becomes_panic_witness :
  Throw (PanicError "trap") <> Throw (A := unit) (FailToInterpret LoadMisAligned).
Proof.
  apply (trap_becomes_panic sample.spinning sample.misaligned tt sample.no_what O 5
           {| backend.outcome := Throw (PanicError "trap");
              backend.retired_count := 0; backend.final := 1%nat |}).
  reflexivity.
Defined.

Lemma clean_run_any_budget_witness :
  backend.simulate_normal sample.counting sample.retire tt sample.no_what O 100 =
    Some {| backend.outcome := Ok tt; backend.retired_count := 3; backend.final := 4%nat |}.
Proof.
  apply (clean_run_any_budget sample.counting sample.retire tt sample.no_what O 10 100).
  - split; vm_compute; discriminate.
  - vm_compute. reflexivity.
  - reflexivity.
  - reflexivity.
Defined.

Lemma pretty_command_default_witness :
  command.pretty_command sample.x_name 0xFFFFFFFF
    = ("0x0x" +:+ command.format_x 0xFFFFFFFF)%string.
Proof.
  apply (pretty_command_default sample.x_name 0xFFFFFFFF).
  rewrite list_elem_of_In. vm_compute. intuition discriminate.
Defined.

Lemma main_first_failure_witness :
  main_cpp.main (Ok tt)
    (fun _ : unit => let* _ := interpreter.Interpreter_new (Ok sample.linked3) in Ok tt)
    Ok Ok (fun _ : unit => Ok tt)
  = main_cpp.main (Ok tt)
    (fun _ : unit => let* _ := interpreter.Interpreter_new (Ok sample.linked3) in Ok tt)
    Ok Ok (sample.simulate_guest sample.retire 1000).
Proof.
  apply (proj1 (main_first_failure (Ok tt)
                  (fun _ : unit => let* _ := interpreter.Interpreter_new (Ok sample.linked3) in Ok tt)
                  Ok Ok (fun _ : unit => Ok tt) tt eq_refl)
           (PanicError "No main function found")).
  reflexivity.
Defined.

Lemma pcrel_pair_rebuilds_witness :
  to_target (Z.shiftl 1 12 + 0x800) = to_target (0x11800 - position sample.ev2) /\
  to_target (Z.shiftl 1 12 + sign_extend 12 0x800) =
    to_target (0x11800 - position sample.ev2
               - (if Z.testbit (0x11800 - position sample.ev2) 11 then 0x1000 else 0)).
Proof.
  apply (pcrel_pair_rebuilds sample.ev2 (StrImmediate "msg") 0x11800 1 0x800);
    vm_compute; reflexivity.
Defined.
